(** * libcron: the scheduling engine (Cron.h, TaskQueue.h)

    A shallow embedding of [libcron::TaskQueue] and [libcron::Cron] and the
    properties of the tick algorithm, of schedule registration and of the
    introspection queries.

    Conventions of the embedding.
    - [std::chrono::system_clock::time_point] and [duration] are counts of
      clock periods and are modelled as mathematical integers ([Z]); signed
      overflow of a chrono count is undefined behaviour in C++ and is outside
      the model.
    - [std::vector<std::unique_ptr<Task>>] is a [list Task]; the identity of
      the heap object behind each [unique_ptr] is kept in the ghost field
      [tid].
    - A work item is a host side effect.  Executing a task appends an [event]
      to the trace returned by [tick]; work items that call back into the
      engine are outside the model.
    - [clock.now()] is an input of every operation that reads the clock.
    - [lock_queue] and [release_queue] bracket every operation and do
      nothing with the default [NullLock]; the model is sequential. *)

From Stdlib Require Import List ZArith String Bool Arith Lia.
From Stdlib Require Import Permutation Sorted.
From Equations Require Import Equations.
Import ListNotations.

Local Open Scope Z_scope.

(** ** std::chrono *)

Module Chrono.

(** [system_clock::period] of libstdc++: one count is a nanosecond. *)
Definition ticks_per_second : Z := 1000000000.

Definition seconds (n : Z) : Z := n * ticks_per_second.
Definition minutes (n : Z) : Z := seconds (60 * n).
Definition hours (n : Z) : Z := minutes (60 * n).
Definition milliseconds (n : Z) : Z := n * (ticks_per_second / 1000).

(** Range of the 64-bit signed representation of a count. *)
Definition rep_max : Z := 2 ^ 63 - 1.

(** Two's complement reduction of a count to 64 bits. *)
Definition wrap64 (x : Z) : Z := (x + 2 ^ 63) mod 2 ^ 64 - 2 ^ 63.

(** [std::numeric_limits<std::chrono::minutes>::max()].  [numeric_limits]
    is specialised for the arithmetic types only; for every other type the
    primary template applies, whose [max()] returns a value-initialised
    [T()].  For a [duration] that is the zero duration (the largest
    duration is [std::chrono::minutes::max()], a different function). *)
Definition numeric_limits_minutes_max : Z := minutes 0.

(** [std::chrono::minutes::max()], the largest number of minutes. *)
Definition minutes_max : Z := rep_max.

End Chrono.

Import Chrono.

(** ** External collaborators *)

(** The cron expression parser and evaluator ([CronData], [CronSchedule])
    and the type of work items are not part of the engine.  [create] and
    [is_valid] are [CronData::create] and [CronData::is_valid];
    [next_occurrence] is the evaluator behind [Task::calculate_next]. *)
Class Collaborators := {
  CronData : Type;
  TaskFunction : Type;
  create : string -> CronData;
  is_valid : CronData -> bool;
  next_occurrence : CronData -> Z -> option Z
}.

Section Model.

Context {ext : Collaborators}.

(** ** Task *)

(** Modelled from the spec: Task.h is not among the sources.  A task has a
    name, a recurrence rule, a work callback and the cached next fire time;
    [valid] is off when the last recomputation found no occurrence (the
    task is then retire-eligible).  [tid] is the ghost identity. *)
Record Task := mkTask {
  tid : nat;
  name : string;
  schedule : CronData;
  work : TaskFunction;
  next_fire : Z;
  valid : bool
}.

(** Modelled from the spec: the [Task] constructor of Task.h; a new task
    has no next fire time until [calculate_next] succeeds. *)
Definition make_task (id : nat) (n : string) (s : CronData)
           (w : TaskFunction) : Task :=
  mkTask id n s w 0 false.

(** Modelled from the spec: [Task::calculate_next] of Task.h asks the rule
    for the earliest occurrence after [from]; on success it stores the
    occurrence and returns true, on failure it marks the task
    retire-eligible and returns false. *)
Definition calculate_next (t : Task) (from : Z) : Task * bool :=
  match next_occurrence (schedule t) from with
  | Some nf =>
      (mkTask (tid t) (name t) (schedule t) (work t) nf true, true)
  | None =>
      (mkTask (tid t) (name t) (schedule t) (work t) (next_fire t) false,
       false)
  end.

(** Modelled from the spec: [Task::is_expired] of Task.h, true iff the
    task has a next fire time and it is at or before [now]. *)
Definition is_expired (t : Task) (now : Z) : bool :=
  valid t && (next_fire t <=? now).

(** Modelled from the spec: [Task::time_until_expiry] of Task.h,
    [next_fire - now], negative once the task has expired. *)
Definition time_until_expiry (t : Task) (now : Z) : Z :=
  next_fire t - now.

(** Modelled from the spec: [Task::operator<] of Task.h, the order by next
    fire time. *)
Definition task_lt (a b : Task) : bool := next_fire a <? next_fire b.

(** One invocation of a work item: which task ran, for which occurrence,
    at which tick time. *)
Record event := mkEvent {
  ev_tid : nat;
  ev_name : string;
  ev_due : Z;
  ev_now : Z
}.

(** Modelled from the spec: [Task::execute] of Task.h invokes the work
    item; the invocation is recorded as an [event]. *)
Definition execute (t : Task) (now : Z) : event :=
  mkEvent (tid t) (name t) (next_fire t) now.

(** ** TaskQueue *)

Definition TaskQueue := list Task.

Definition size (c : TaskQueue) : nat := List.length c.

Definition empty (c : TaskQueue) : bool :=
  match c with [] => true | _ :: _ => false end.

(** [push(std::unique_ptr<Task>)]: [push_back]. *)
Definition push (t : Task) (c : TaskQueue) : TaskQueue := c ++ [t].

(** [push(std::vector<...>&)]: insert at the end. *)
Definition push_all (tasks_to_insert : list Task) (c : TaskQueue)
  : TaskQueue :=
  c ++ tasks_to_insert.

(** [top()] is [*c[0]]; it is only called on a non-empty queue. *)
Definition top (c : TaskQueue) : option Task := hd_error c.

(** [at(i)] is [*c[i]]. *)
Definition at_ (c : TaskQueue) (i : nat) : option Task := nth_error c i.

(** Assignment through the reference returned by [at(i)]. *)
Fixpoint set_at (i : nat) (t : Task) (c : TaskQueue) : TaskQueue :=
  match c, i with
  | [], _ => []
  | _ :: c', O => t :: c'
  | x :: c', S j => x :: set_at j t c'
  end.

Definition clear (c : TaskQueue) : TaskQueue := [].

(** [std::find_if] followed by [erase] of the iterator found. *)
Fixpoint erase_first (p : Task -> bool) (c : TaskQueue) : TaskQueue :=
  match c with
  | [] => []
  | t :: c' => if p t then c' else t :: erase_first p c'
  end.

(** [remove(Task&)]: erases the first task with the name of [to_remove]. *)
Definition remove_task (to_remove : Task) (c : TaskQueue) : TaskQueue :=
  erase_first (fun to_compare => (name to_remove =? name to_compare)%string)
              c.

(** [remove(std::string)]: erases the first task named [to_remove]. *)
Definition remove_name (to_remove : string) (c : TaskQueue) : TaskQueue :=
  erase_first (fun to_compare => (to_remove =? name to_compare)%string) c.

(** The result of [std::sort] with comparator [task_lt] is a permutation
    of the queue in ascending order of next fire time; the order of tasks
    with equal next fire times is unspecified. *)
Definition by_next_fire (a b : Task) : Prop := next_fire a <= next_fire b.

Class Sorter := {
  sort : TaskQueue -> TaskQueue;
  sort_permutation : forall c, Permutation c (sort c);
  sort_sorted : forall c, StronglySorted by_next_fire (sort c)
}.

(** Insertion sort with the comparator of [TaskQueue::sort], one
    implementation of [Sorter]. *)
Fixpoint insert_by (lt : Task -> Task -> bool) (t : Task) (c : TaskQueue)
  : TaskQueue :=
  match c with
  | [] => [t]
  | x :: c' => if lt t x then t :: x :: c' else x :: insert_by lt t c'
  end.

Definition insertion_sort (c : TaskQueue) : TaskQueue :=
  fold_right (insert_by task_lt) [] c.

(** Decidable form of "ascending order of next fire time". *)
Fixpoint is_sorted (c : TaskQueue) : bool :=
  match c with
  | [] => true
  | a :: c' =>
      forallb (fun b => next_fire a <=? next_fire b) c' && is_sorted c'
  end.

(** ** Cron *)

Context {sorter : Sorter}.

(** The members of [Cron] except the clock, which is an input;
    [next_tid] is the ghost supply of task identities. *)
Record Cron := mkCron {
  tasks : TaskQueue;
  first_tick : bool;
  last_tick : Z;
  next_tid : nat
}.

Definition init : Cron := mkCron [] true 0 0.

Definition with_tasks (c : Cron) (q : TaskQueue) : Cron :=
  mkCron q (first_tick c) (last_tick c) (next_tid c).

Definition count (c : Cron) : nat := size (tasks c).

Definition one_second : Z := seconds 1.
Definition three_hours : Z := hours 3.

(** [add_schedule(name, schedule, work)]; [clock_now] is the value of
    [clock.now()]. *)
Definition add_schedule (c : Cron) (clock_now : Z) (n : string)
           (s : string) (w : TaskFunction) : Cron * bool :=
  let cron := create s in
  let res := is_valid cron in
  if res then
    let t := make_task (next_tid c) n cron w in
    let (t', ok) := calculate_next t clock_now in
    if ok
    then (mkCron (sort (push t' (tasks c))) (first_tick c) (last_tick c)
                 (S (next_tid c)), res)
    else (c, res)
  else (c, res).

(** The validation loop of the bulk [add_schedule]: it stops at the first
    invalid entry and records its name and rule.  [clock k] is the value
    of the [k]-th call of [clock.now()], [id] the first free identity. *)
Fixpoint collect (clock : nat -> Z) (k : nat) (id : nat)
         (entries : list (string * string)) (w : TaskFunction)
         (tasks_to_add : list Task)
  : bool * string * string * list Task :=
  match entries with
  | [] => (true, EmptyString, EmptyString, tasks_to_add)
  | (n, s) :: rest =>
      let cron := create s in
      if is_valid cron then
        let t := make_task (id + List.length tasks_to_add) n cron w in
        let (t', ok) := calculate_next t (clock k) in
        collect clock (S k) id rest w
                (if ok then tasks_to_add ++ [t'] else tasks_to_add)
      else (false, n, s, tasks_to_add)
  end.

(** [add_schedule(name_schedule_map, work)]; the map is given by its
    entries in iteration order. *)
Definition add_schedules (c : Cron) (clock : nat -> Z)
           (name_schedule_map : list (string * string)) (w : TaskFunction)
  : Cron * (bool * string * string) :=
  match collect clock 0 (next_tid c) name_schedule_map w [] with
  | (valid_all, n, s, tasks_to_add) =>
      if valid_all && (0 <? List.length tasks_to_add)%nat
      then (mkCron (sort (push_all tasks_to_add (tasks c)))
                   (first_tick c) (last_tick c)
                   (next_tid c + List.length tasks_to_add),
            (valid_all, n, s))
      else (c, (valid_all, n, s))
  end.

Definition clear_schedules (c : Cron) : Cron :=
  with_tasks c (clear (tasks c)).

Definition remove_schedule (c : Cron) (n : string) : Cron :=
  with_tasks c (remove_name n (tasks c)).

(** The loop of [recalculate_schedule]: the [k]-th task is recomputed from
    the [k]-th reading of the clock plus one second. *)
Fixpoint recalculate_from (clock : nat -> Z) (k : nat) (c : TaskQueue)
  : TaskQueue :=
  match c with
  | [] => []
  | t :: c' =>
      fst (calculate_next t (clock k + one_second))
      :: recalculate_from clock (S k) c'
  end.

Definition recalculate_schedule (c : Cron) (clock : nat -> Z) : Cron :=
  with_tasks c (sort (recalculate_from clock 0 (tasks c))).

(** [time_until_next()], in counts of the system clock. *)
Definition time_until_next (c : Cron) (clock_now : Z) : Z :=
  if empty (tasks c) then numeric_limits_minutes_max
  else
    match top (tasks c) with
    | Some t => time_until_expiry t clock_now
    | None => 0
    end.

(** *** tick *)

(** Lines 212-224: within one second of the last tick, time does not
    flow. *)
Definition debounce (c : Cron) (now : Z) : Z :=
  if negb (first_tick c) then
    let diff := now - last_tick c in
    if (diff <? one_second) && (- one_second <? diff)
    then last_tick c
    else now
  else now.

(** Lines 229-259: a change of three hours or more recomputes every
    task from the new time. *)
Definition drift_correction (c : Cron) (now : Z) : TaskQueue :=
  if first_tick c then tasks c
  else
    let diff := now - last_tick c in
    let absolute_diff := if 0 <? diff then diff else - diff in
    if three_hours <=? absolute_diff
    then map (fun t => fst (calculate_next t now)) (tasks c)
    else tasks c.

(** The state of the execution pass: the queue, [res] and the work items
    invoked so far. *)
Record pass := mkPass {
  p_queue : TaskQueue;
  p_res : nat;
  p_trace : list event
}.

(** Lines 267-279: the body of the loop at index [i]. *)
Definition visit (now : Z) (i : nat) (p : pass) : pass :=
  match at_ (p_queue p) i with
  | None => p
  | Some t =>
      if is_expired t now then
        let ev := execute t now in
        let (t', ok) := calculate_next t (now + one_second) in
        let c1 := set_at i t' (p_queue p) in
        let c2 := if ok then c1 else remove_task t' c1 in
        mkPass c2 (S (p_res p)) (p_trace p ++ [ev])
      else p
  end.

(** Lines 265-280: [for (size_t i = 0; i < tasks.size(); i++)].  The
    queue never grows during the pass, so [size - i] decreases. *)
Equations? exec_loop (now : Z) (i : nat) (p : pass) : pass
  by wf (size (p_queue p) - i)%nat lt :=
  exec_loop now i p with lt_dec i (size (p_queue p)) := {
    | left _ => exec_loop now (S i) (visit now i p);
    | right _ => p }.
Proof.
  assert (Hset : forall t c j, size (set_at j t c) = size c).
  { intros t c. induction c as [|x c IH]; intros [|j]; simpl; auto. }
  assert (Herase : forall f c, (size (erase_first f c) <= size c)%nat).
  { intros f c. induction c as [|x c IH]; simpl; auto.
    destruct (f x); simpl; lia. }
  assert (Hvisit : (size (p_queue (visit now i p)) <= size (p_queue p))%nat).
  { unfold visit. destruct (at_ (p_queue p) i) as [t|]; auto.
    destruct (is_expired t now); auto.
    destruct (calculate_next t (now + one_second)) as [t' [|]]; simpl.
    - rewrite Hset. auto.
    - unfold remove_task. etransitivity; [apply Herase|].
      rewrite Hset. auto. }
  lia.
Qed.

(** Lines 263-287: the execution pass and the closing sort. *)
Definition execution_pass (now : Z) (q : TaskQueue) : pass :=
  if negb (empty q) then
    let p := exec_loop now 0 (mkPass q 0 []) in
    if (0 <? p_res p)%nat
    then mkPass (sort (p_queue p)) (p_res p) (p_trace p)
    else p
  else mkPass q 0 [].

(** What a call of [tick] leaves behind: the engine, the returned count
    and the work items invoked, in order. *)
Record outcome := mkOutcome {
  engine : Cron;
  fired : nat;
  calls : list event
}.

(** [tick(now)]. *)
Definition tick (c : Cron) (now : Z) : outcome :=
  let now := debounce c now in
  let q := drift_correction c now in
  let p := execution_pass now q in
  mkOutcome (mkCron (p_queue p) false now (next_tid c))
            (p_res p) (p_trace p).

(** A sequence of ticks and the work items they invoke. *)
Fixpoint ticks (c : Cron) (nows : list Z) : Cron * list event :=
  match nows with
  | [] => (c, [])
  | now :: rest =>
      let o := tick c now in
      let (c', tr) := ticks (engine o) rest in
      (c', calls o ++ tr)
  end.

(** The timestamp a tick at [now] records when the previous one recorded
    [last]. *)
Definition accepted (last now : Z) : Z :=
  if (now - last <? one_second) && (- one_second <? now - last)
  then last else now.

(** Every tick of the sequence is less than three hours away from the
    tick before it. *)
Fixpoint small_drift (last : Z) (nows : list Z) : Prop :=
  match nows with
  | [] => True
  | now :: rest =>
      Z.abs (now - last) < three_hours
      /\ small_drift (accepted last now) rest
  end.

(** The public operations of the engine that change it. *)
Inductive operation :=
| Add (clock_now : Z) (n s : string) (w : TaskFunction)
| AddBulk (clock : nat -> Z) (entries : list (string * string))
          (w : TaskFunction)
| Remove (n : string)
| Clear
| Recalculate (clock : nat -> Z)
| Tick (now : Z).

Definition apply (c : Cron) (o : operation) : Cron :=
  match o with
  | Add clock_now n s w => fst (add_schedule c clock_now n s w)
  | AddBulk clock entries w => fst (add_schedules c clock entries w)
  | Remove n => remove_schedule c n
  | Clear => clear_schedules c
  | Recalculate clock => recalculate_schedule c clock
  | Tick now => engine (tick c now)
  end.

Definition run (c : Cron) (ops : list operation) : Cron :=
  fold_left apply ops c.

Definition names (c : Cron) : list string := map name (tasks c).
Definition tids (c : Cron) : list nat := map tid (tasks c).

(** ** Vocabulary of the specification *)

(** The contract of the evaluator: an occurrence it returns lies strictly
    after the reference time. *)
Definition later_occurrences : Prop :=
  forall r from t, next_occurrence r from = Some t -> from < t.

(** The first entry, in iteration order, whose rule is invalid. *)
Definition first_invalid (entries : list (string * string))
  : option (string * string) :=
  find (fun e => negb (is_valid (create (snd e)))) entries.

(** The tasks of a batch of valid entries that have an occurrence after
    the clock reading taken for them, in iteration order. *)
Fixpoint runnable (clock : nat -> Z) (k : nat) (id : nat)
         (entries : list (string * string)) (w : TaskFunction)
  : list Task :=
  match entries with
  | [] => []
  | (n, s) :: rest =>
      match next_occurrence (create s) (clock k) with
      | Some nf =>
          mkTask id n (create s) w nf true
          :: runnable clock (S k) (S id) rest w
      | None => runnable clock (S k) id rest w
      end
  end.

(** An operation that registers no name already in the queue. *)
Definition fresh (c : Cron) (o : operation) : Prop :=
  match o with
  | Add _ n _ _ => ~ In n (names c)
  | AddBulk _ entries _ =>
      NoDup (map fst entries)
      /\ forall n, In n (map fst entries) -> ~ In n (names c)
  | _ => True
  end.

Fixpoint legal (c : Cron) (ops : list operation) : Prop :=
  match ops with
  | [] => True
  | o :: rest => fresh c o /\ legal (apply c o) rest
  end.

(** "All constructed tasks are inserted": after a batch without an
    invalid rule every name of the batch is in the queue. *)
Definition bulk_inserts_every_task (c : Cron) (clock : nat -> Z)
           (entries : list (string * string)) (w : TaskFunction) : Prop :=
  first_invalid entries = None ->
  forall n, In n (map fst entries) ->
            In n (names (fst (add_schedules c clock entries w))).

(** Identities are unique and below the ghost supply. *)
Definition well_formed (c : Cron) : Prop :=
  NoDup (tids c) /\ Forall (fun i => (i < next_tid c)%nat) (tids c).

End Model.

(** ** A concrete parser and evaluator

    Rules used to run the engine on concrete inputs: a rule recurs at every
    multiple of a period, or at the instants of a finite list (a rule that
    runs out of occurrences). *)

Module Demo.

Inductive rule :=
| Every (period : positive)
| At (instants : list Z)
| Malformed.

Definition rule_valid (r : rule) : bool :=
  match r with Malformed => false | _ => true end.

Definition rule_next (r : rule) (from : Z) : option Z :=
  match r with
  | Every p => Some ((from / Z.pos p + 1) * Z.pos p)
  | At l => find (fun x => from <? x) l
  | Malformed => None
  end.

(** The rule texts understood by the demonstration parser. *)
Definition rule_table : list (string * rule) :=
  [ ("* * * * * ?", Every 1000000000);
    ("0 * * * * ?", Every 60000000000);
    ("0 0 */4 * * ?", Every 14400000000000);
    ("0 0 */5 * * ?", Every 18000000000000);
    ("once at 5s", At [5000000000]);
    ("at 10s and 70s", At [10000000000; 70000000000]);
    ("never", At []) ]%string.

Fixpoint lookup (s : string) (tbl : list (string * rule)) : rule :=
  match tbl with
  | [] => Malformed
  | (k, r) :: tbl' => if (s =? k)%string then r else lookup s tbl'
  end.

Definition parse (s : string) : rule := lookup s rule_table.

#[export] Instance collaborators : Collaborators := {|
  CronData := rule;
  TaskFunction := unit;
  create := parse;
  is_valid := rule_valid;
  next_occurrence := rule_next
|}.

End Demo.

(** * Properties *)

Section Queue_facts.

Context {ext : Collaborators}.

Lemma at_In (c : TaskQueue) (i : nat) (t : Task) :
  at_ c i = Some t -> In t c.
Proof. apply nth_error_In. Qed.

Lemma at_defined (c : TaskQueue) (i : nat) :
  (i < size c)%nat -> exists t, at_ c i = Some t.
Proof.
  intros H. unfold at_. destruct (nth_error c i) as [t|] eqn:E.
  - now exists t.
  - apply nth_error_None in E. unfold size in H. lia.
Qed.

Lemma In_set_at (i : nat) (t y : Task) (c : TaskQueue) :
  In y (set_at i t c) -> y = t \/ In y c.
Proof.
  revert i. induction c as [|x c IH]; intros [|i]; simpl; auto.
  - intros [<-|H]; auto.
  - intros [<-|H]; auto. destruct (IH _ H); auto.
Qed.

Lemma set_at_In (i : nat) (t old : Task) (c : TaskQueue) :
  at_ c i = Some old -> In t (set_at i t c).
Proof.
  revert i. induction c as [|x c IH]; intros [|i]; simpl; try discriminate.
  - auto.
  - intros H. right. now apply IH.
Qed.

Lemma map_set_at {A} (f : Task -> A) (i : nat) (t old : Task)
      (c : TaskQueue) :
  at_ c i = Some old -> f t = f old -> map f (set_at i t c) = map f c.
Proof.
  revert i. induction c as [|x c IH]; intros [|i]; simpl; try discriminate.
  - intros [= ->] ->. reflexivity.
  - intros H E. f_equal. now apply IH.
Qed.

Lemma In_erase_first (p : Task -> bool) (y : Task) (c : TaskQueue) :
  In y (erase_first p c) -> In y c.
Proof.
  induction c as [|x c IH]; simpl; auto.
  destruct (p x); simpl; intuition.
Qed.

Lemma NoDup_map_erase_first {A} (f : Task -> A) (p : Task -> bool)
      (c : TaskQueue) :
  NoDup (map f c) -> NoDup (map f (erase_first p c)).
Proof.
  induction c as [|x c IH]; simpl; auto.
  intros H. inversion H as [|? ? Hx Hc]; subst.
  destruct (p x); simpl; auto.
  constructor; auto.
  intros Hin. apply Hx. apply in_map_iff in Hin as (y & E & Hy).
  apply in_map_iff. exists y. split; auto. eapply In_erase_first; eauto.
Qed.

Lemma NoDup_map_eq {A} (f : Task -> A) (c : TaskQueue) (x y : Task) :
  NoDup (map f c) -> In x c -> In y c -> f x = f y -> x = y.
Proof.
  induction c as [|z c IH]; simpl; [tauto|].
  intros H. inversion H as [|? ? Hz Hc]; subst.
  intros [->|Hx] [->|Hy] E; auto.
  - exfalso. apply Hz. rewrite E. now apply in_map.
  - exfalso. apply Hz. rewrite <- E. now apply in_map.
Qed.

(** [calculate_next] touches the next fire time and the flag only. *)
Lemma calculate_next_tid (t : Task) (from : Z) :
  tid (fst (calculate_next t from)) = tid t.
Proof. unfold calculate_next. now destruct next_occurrence. Qed.

Lemma calculate_next_name (t : Task) (from : Z) :
  name (fst (calculate_next t from)) = name t.
Proof. unfold calculate_next. now destruct next_occurrence. Qed.

Lemma calculate_next_ok (t t' : Task) (from : Z) :
  calculate_next t from = (t', true) ->
  valid t' = true /\ next_occurrence (schedule t) from = Some (next_fire t').
Proof.
  unfold calculate_next. destruct next_occurrence; intros [= <-]; auto.
Qed.

Lemma calculate_next_failed (t t' : Task) (from : Z) :
  calculate_next t from = (t', false) -> valid t' = false.
Proof.
  unfold calculate_next. destruct next_occurrence; intros [= <-]; auto.
Qed.

(** The two ways a visit of index [i] can go. *)
Lemma visit_cases (now : Z) (i : nat) (p : pass) (t : Task) :
  at_ (p_queue p) i = Some t ->
  (is_expired t now = false /\ visit now i p = p)
  \/ (is_expired t now = true
      /\ exists t' ok,
           calculate_next t (now + one_second) = (t', ok)
           /\ visit now i p
              = mkPass (if ok then set_at i t' (p_queue p)
                        else remove_task t' (set_at i t' (p_queue p)))
                       (S (p_res p)) (p_trace p ++ [execute t now])).
Proof.
  intros H. unfold visit. rewrite H.
  destruct (is_expired t now); [right|left]; auto.
  split; auto.
  destruct (calculate_next t (now + one_second)) as [t' ok].
  now exists t', ok.
Qed.

(** Membership in the queue after a visit that executed [t]. *)
Lemma In_visited (i : nat) (t t' y : Task) (ok : bool) (c : TaskQueue) :
  In y (if ok then set_at i t' c else remove_task t' (set_at i t' c)) ->
  y = t' \/ In y c.
Proof.
  destruct ok; intros H.
  - eapply In_set_at; eauto.
  - apply In_erase_first in H. eapply In_set_at; eauto.
Qed.

Lemma NoDup_visited {A} (f : Task -> A) (i : nat) (t t' : Task)
      (ok : bool) (c : TaskQueue) :
  at_ c i = Some t -> f t' = f t -> NoDup (map f c) ->
  NoDup (map f (if ok then set_at i t' c
                else remove_task t' (set_at i t' c))).
Proof.
  intros Hat E H.
  assert (H' : NoDup (map f (set_at i t' c)))
    by (erewrite map_set_at; eauto).
  destruct ok; auto. now apply NoDup_map_erase_first.
Qed.

(** Loop invariants: what every visit preserves holds after the loop. *)
Lemma exec_loop_invariant (P : pass -> Prop) (now : Z) :
  (forall i p t, at_ (p_queue p) i = Some t -> P p -> P (visit now i p)) ->
  forall i p, P p -> P (exec_loop now i p).
Proof.
  intros Hstep i p. funelim (exec_loop now i p); intros HP.
  - destruct (at_defined (p_queue p) i) as [t Ht]; auto.
    apply H; [exact Hstep|]. eapply Hstep; eauto.
  - exact HP.
Qed.

End Queue_facts.

(** ** Insertion sort is a [Sorter] *)

Section Sorting_facts.

Context {ext : Collaborators}.

Lemma insert_by_permutation (t : Task) (c : TaskQueue) :
  Permutation (t :: c) (insert_by task_lt t c).
Proof.
  induction c as [|x c IH]; simpl; auto.
  destruct (task_lt t x); auto.
  rewrite perm_swap. now constructor.
Qed.

Lemma insertion_sort_permutation (c : TaskQueue) :
  Permutation c (insertion_sort c).
Proof.
  induction c as [|x c IH]; simpl; auto.
  rewrite <- insert_by_permutation. now constructor.
Qed.

Lemma insert_by_sorted (t : Task) (c : TaskQueue) :
  StronglySorted by_next_fire c ->
  StronglySorted by_next_fire (insert_by task_lt t c).
Proof.
  induction 1 as [|x c Hc IH Hx]; simpl.
  - repeat constructor.
  - unfold task_lt. destruct (Z.ltb_spec (next_fire t) (next_fire x)).
    + constructor; [now constructor|].
      constructor; [unfold by_next_fire; lia|].
      eapply Forall_impl; [|exact Hx].
      unfold by_next_fire. intros; lia.
    + constructor; auto.
      eapply Permutation_Forall; [apply insert_by_permutation|].
      constructor; auto.
Qed.

Lemma insertion_sort_sorted (c : TaskQueue) :
  StronglySorted by_next_fire (insertion_sort c).
Proof.
  induction c as [|x c IH]; simpl; [constructor|].
  now apply insert_by_sorted.
Qed.

#[export] Instance insertion_sorter : Sorter := {|
  sort := insertion_sort;
  sort_permutation := insertion_sort_permutation;
  sort_sorted := insertion_sort_sorted
|}.

Lemma is_sorted_spec (c : TaskQueue) :
  is_sorted c = true <-> StronglySorted by_next_fire c.
Proof.
  induction c as [|x c IH]; simpl.
  - split; auto. constructor.
  - rewrite andb_true_iff, forallb_forall, IH. split.
    + intros [H1 H2]. constructor; auto.
      apply Forall_forall. intros y Hy. apply Z.leb_le. auto.
    + intros H. inversion H as [|? ? H1 H2]; subst. split; auto.
      intros y Hy. apply Z.leb_le.
      rewrite Forall_forall in H2. now apply H2.
Qed.

End Sorting_facts.

(** ** The execution pass *)

Section Pass_facts.

Context {ext : Collaborators} {sorter : Sorter}.

Lemma one_second_pos : 0 < one_second.
Proof. reflexivity. Qed.

Lemma one_second_lt_three_hours : one_second < three_hours.
Proof. reflexivity. Qed.

Lemma In_sort (c : TaskQueue) (y : Task) : In y (sort c) -> In y c.
Proof. apply Permutation_in. symmetry. apply sort_permutation. Qed.

Lemma sort_In (c : TaskQueue) (y : Task) : In y c -> In y (sort c).
Proof. apply Permutation_in. apply sort_permutation. Qed.

Lemma NoDup_map_sort {A} (f : Task -> A) (c : TaskQueue) :
  NoDup (map f c) -> NoDup (map f (sort c)).
Proof.
  apply Permutation_NoDup, Permutation_map, sort_permutation.
Qed.

(** A task just rescheduled from [now + 1s] is not due before then. *)
Lemma rescheduled_later (t t' : Task) (ok : bool) (now : Z) :
  later_occurrences ->
  calculate_next t (now + one_second) = (t', ok) ->
  valid t' = true -> now + one_second < next_fire t'.
Proof.
  intros Hlater Hc Hv. destruct ok.
  - apply calculate_next_ok in Hc as [_ Hc]. now apply Hlater in Hc.
  - apply calculate_next_failed in Hc. congruence.
Qed.

Lemma rescheduled_not_expired (t t' : Task) (ok : bool) (now : Z) :
  later_occurrences ->
  calculate_next t (now + one_second) = (t', ok) ->
  is_expired t' now = false.
Proof.
  intros Hlater Hc. unfold is_expired.
  destruct (valid t') eqn:Hv; auto. simpl.
  pose proof (rescheduled_later _ _ _ _ Hlater Hc Hv).
  pose proof one_second_pos. apply Z.leb_gt. lia.
Qed.

Lemma calculate_next_fst_tid (t t' : Task) (ok : bool) (from : Z) :
  calculate_next t from = (t', ok) -> tid t' = tid t.
Proof. intros H. now rewrite <- (calculate_next_tid t from), H. Qed.

Lemma calculate_next_fst_name (t t' : Task) (ok : bool) (from : Z) :
  calculate_next t from = (t', ok) -> name t' = name t.
Proof. intros H. now rewrite <- (calculate_next_name t from), H. Qed.

(** After the loop, a task that ran is due later than one second after
    [now], and what ran was due. *)
Definition rescheduled (now : Z) (p : pass) : Prop :=
  NoDup (map tid (p_queue p))
  /\ (forall e, In e (p_trace p) -> ev_due e <= now)
  /\ (forall y e, In y (p_queue p) -> In e (p_trace p) ->
                  tid y = ev_tid e -> valid y = true ->
                  now + one_second < next_fire y).

Lemma visit_rescheduled (now : Z) (i : nat) (p : pass) (t : Task) :
  later_occurrences ->
  at_ (p_queue p) i = Some t ->
  rescheduled now p -> rescheduled now (visit now i p).
Proof.
  intros Hlater Hat (Hnd & Hdue & Hre).
  destruct (visit_cases now i p t Hat)
    as [[_ ->]|(Hexp & t' & ok & Hc & ->)]; [now repeat split|].
  pose proof (calculate_next_fst_tid _ _ _ _ Hc) as Htid.
  assert (Hnd1 : NoDup (map tid (set_at i t' (p_queue p))))
    by (erewrite map_set_at; eauto).
  assert (Hsub : forall y,
             In y (if ok then set_at i t' (p_queue p)
                   else remove_task t' (set_at i t' (p_queue p))) ->
             In y (set_at i t' (p_queue p))).
  { intros y. destruct ok; auto. apply In_erase_first. }
  repeat split; simpl.
  - eapply NoDup_visited; eauto.
  - intros e [He|[<-|[]]]%in_app_or; auto. simpl.
    unfold is_expired in Hexp. apply andb_true_iff in Hexp as [_ Hexp].
    now apply Z.leb_le.
  - intros y e Hy%Hsub He Hye Hv.
    destruct (In_set_at _ _ _ _ Hy) as [->|Hy'].
    + eapply rescheduled_later; eauto.
    + apply in_app_or in He as [He|[<-|[]]]; [eauto|].
      simpl in Hye.
      assert (y = t') as ->.
      { eapply (NoDup_map_eq tid); eauto.
        - eapply set_at_In; eauto.
        - congruence. }
      eapply rescheduled_later; eauto.
Qed.

Lemma exec_loop_rescheduled (now : Z) (i : nat) (p : pass) :
  later_occurrences ->
  rescheduled now p -> rescheduled now (exec_loop now i p).
Proof.
  intros Hlater. apply exec_loop_invariant.
  intros j q t. now apply visit_rescheduled.
Qed.

(** Every work item invoked by the loop belongs to a task of the initial
    queue that was due. *)
Definition sourced (now : Z) (q0 : TaskQueue) (p : pass) : Prop :=
  (forall y, In y (p_queue p) -> In y q0 \/ is_expired y now = false)
  /\ (forall e, In e (p_trace p) ->
                exists x, In x q0 /\ e = execute x now
                          /\ is_expired x now = true).

Lemma visit_sourced (now : Z) (q0 : TaskQueue) (i : nat) (p : pass)
      (t : Task) :
  later_occurrences ->
  at_ (p_queue p) i = Some t ->
  sourced now q0 p -> sourced now q0 (visit now i p).
Proof.
  intros Hlater Hat (Hq & Htr).
  destruct (visit_cases now i p t Hat)
    as [[_ ->]|(Hexp & t' & ok & Hc & ->)]; [now split|].
  split; simpl.
  - intros y [->|Hy]%In_visited; auto.
    right. eapply rescheduled_not_expired; eauto.
  - intros e [He|[<-|[]]]%in_app_or; auto.
    exists t. repeat split; auto.
    destruct (Hq t (at_In _ _ _ Hat)); [auto|congruence].
Qed.

Lemma exec_loop_sourced (now : Z) (q0 : TaskQueue) (i : nat) (p : pass) :
  later_occurrences ->
  sourced now q0 p -> sourced now q0 (exec_loop now i p).
Proof.
  intros Hlater. apply exec_loop_invariant.
  intros j q t. now apply visit_sourced.
Qed.

(** A task that is not due is neither executed nor changed by the loop. *)
Definition untouched (x : Task) (p : pass) : Prop :=
  (forall y, In y (p_queue p) -> tid y = tid x -> y = x)
  /\ (forall e, In e (p_trace p) -> ev_tid e <> tid x).

Lemma visit_untouched (now : Z) (x : Task) (i : nat) (p : pass)
      (t : Task) :
  is_expired x now = false ->
  at_ (p_queue p) i = Some t ->
  untouched x p -> untouched x (visit now i p).
Proof.
  intros Hx Hat (Hq & Htr).
  destruct (visit_cases now i p t Hat)
    as [[_ ->]|(Hexp & t' & ok & Hc & ->)]; [now split|].
  assert (Hne : tid t <> tid x).
  { intros E. apply Hq in E; [|eapply at_In; eauto]. congruence. }
  pose proof (calculate_next_fst_tid _ _ _ _ Hc) as Htid.
  split; simpl.
  - intros y [->|Hy]%In_visited; auto. congruence.
  - intros e [He|[<-|[]]]%in_app_or; auto.
Qed.

Lemma exec_loop_untouched (now : Z) (x : Task) (i : nat) (p : pass) :
  is_expired x now = false ->
  untouched x p -> untouched x (exec_loop now i p).
Proof.
  intros Hx. apply exec_loop_invariant.
  intros j q t. now apply visit_untouched.
Qed.

(** A queue without a due task passes the loop unchanged. *)
Lemma exec_loop_idle (now : Z) (i : nat) (p : pass) :
  (forall t, In t (p_queue p) -> is_expired t now = false) ->
  exec_loop now i p = p.
Proof.
  intros Hidle.
  apply (exec_loop_invariant (fun q => q = p)); auto.
  intros j q t Hat ->.
  destruct (visit_cases now j p t Hat) as [[_ ->]|(Hexp & _)]; auto.
  rewrite Hidle in Hexp by (eapply at_In; eauto). discriminate.
Qed.

(** The count returned is the number of work items invoked. *)
Lemma exec_loop_count (now : Z) (i : nat) (p : pass) :
  p_res p = List.length (p_trace p) ->
  p_res (exec_loop now i p) = List.length (p_trace (exec_loop now i p)).
Proof.
  apply (exec_loop_invariant
           (fun q => p_res q = List.length (p_trace q))).
  intros j q t Hat H.
  destruct (visit_cases now j q t Hat)
    as [[_ ->]|(Hexp & t' & ok & Hc & ->)]; auto.
  simpl. rewrite length_app. simpl. lia.
Qed.

End Pass_facts.

(** ** tick *)

Section Tick_facts.

Context {ext : Collaborators} {sorter : Sorter}.

Lemma debounce_accepted (c : Cron) (now : Z) :
  first_tick c = false -> debounce c now = accepted (last_tick c) now.
Proof. unfold debounce, accepted. now intros ->. Qed.

Lemma accepted_near (last now : Z) :
  Z.abs (now - last) < one_second -> accepted last now = last.
Proof.
  intros H. unfold accepted.
  destruct (Z.ltb_spec (now - last) one_second);
    destruct (Z.ltb_spec (- one_second) (now - last)); simpl; auto; lia.
Qed.

Lemma accepted_far (last now : Z) :
  one_second <= Z.abs (now - last) -> accepted last now = now.
Proof.
  intros H. unfold accepted.
  destruct (Z.ltb_spec (now - last) one_second);
    destruct (Z.ltb_spec (- one_second) (now - last)); simpl; auto; lia.
Qed.

Lemma accepted_drift (last now : Z) :
  Z.abs (now - last) < three_hours ->
  Z.abs (accepted last now - last) < three_hours.
Proof.
  intros H. unfold accepted. destruct (_ && _); auto.
  rewrite Z.sub_diag. reflexivity.
Qed.

Lemma accepted_cases (last now : Z) :
  accepted last now = last \/ accepted last now = now.
Proof. unfold accepted. destruct (_ && _); auto. Qed.

Lemma tick_last_tick (c : Cron) (now : Z) :
  last_tick (engine (tick c now)) = debounce c now.
Proof. reflexivity. Qed.

Lemma tick_first_tick (c : Cron) (now : Z) :
  first_tick (engine (tick c now)) = false.
Proof. reflexivity. Qed.

Lemma drift_correction_small (c : Cron) (now : Z) :
  Z.abs (now - last_tick c) < three_hours ->
  drift_correction c now = tasks c.
Proof.
  intros H. unfold drift_correction. destruct (first_tick c); auto.
  destruct (Z.ltb_spec 0 (now - last_tick c));
    destruct (Z.leb_spec three_hours (now - last_tick c));
    destruct (Z.leb_spec three_hours (- (now - last_tick c)));
    auto; lia.
Qed.

Lemma drift_correction_large (c : Cron) (now : Z) :
  first_tick c = false ->
  three_hours <= Z.abs (now - last_tick c) ->
  drift_correction c now
  = map (fun t => fst (calculate_next t now)) (tasks c).
Proof.
  intros Hf H. unfold drift_correction. rewrite Hf.
  destruct (Z.ltb_spec 0 (now - last_tick c));
    destruct (Z.leb_spec three_hours (now - last_tick c));
    destruct (Z.leb_spec three_hours (- (now - last_tick c)));
    auto; lia.
Qed.

Lemma drift_correction_cases (c : Cron) (now : Z) :
  drift_correction c now = tasks c
  \/ drift_correction c now
     = map (fun t => fst (calculate_next t now)) (tasks c).
Proof.
  unfold drift_correction. destruct (first_tick c); auto.
  destruct (_ <=? _); auto.
Qed.

Lemma drift_correction_tid (c : Cron) (now : Z) :
  map tid (drift_correction c now) = tids c.
Proof.
  destruct (drift_correction_cases c now) as [->| ->]; auto.
  rewrite map_map. apply map_ext. intros t. apply calculate_next_tid.
Qed.

Lemma drift_correction_name (c : Cron) (now : Z) :
  map name (drift_correction c now) = names c.
Proof.
  destruct (drift_correction_cases c now) as [->| ->]; auto.
  rewrite map_map. apply map_ext. intros t. apply calculate_next_name.
Qed.

(** A task recomputed from [now] is not due at [now]. *)
Lemma recomputed_not_expired (t : Task) (now : Z) :
  later_occurrences -> is_expired (fst (calculate_next t now)) now = false.
Proof.
  intros Hlater. unfold calculate_next.
  destruct (next_occurrence (schedule t) now) as [nf|] eqn:E; auto.
  apply Hlater in E. unfold is_expired. simpl. apply Z.leb_gt. lia.
Qed.

Lemma drift_correction_due (c : Cron) (now : Z) (x : Task) :
  later_occurrences ->
  In x (drift_correction c now) -> is_expired x now = true ->
  In x (tasks c).
Proof.
  intros Hlater Hx Hexp.
  destruct (drift_correction_cases c now) as [E|E]; rewrite E in Hx; auto.
  apply in_map_iff in Hx as (t & <- & _).
  rewrite recomputed_not_expired in Hexp; [discriminate|auto].
Qed.

Lemma execution_pass_idle (now : Z) (q : TaskQueue) :
  (forall t, In t q -> is_expired t now = false) ->
  execution_pass now q = mkPass q 0 [].
Proof.
  intros H. unfold execution_pass. destruct q as [|t q]; auto.
  simpl negb. cbv iota. rewrite exec_loop_idle; auto.
Qed.

Lemma execution_pass_rescheduled (now : Z) (q : TaskQueue) :
  later_occurrences -> NoDup (map tid q) ->
  rescheduled now (execution_pass now q).
Proof.
  intros Hlater Hnd.
  assert (H0 : rescheduled now (mkPass q 0 []))
    by (repeat split; simpl; auto; tauto).
  unfold execution_pass. destruct (negb (empty q)); auto.
  pose proof (exec_loop_rescheduled now 0 _ Hlater H0) as (H1 & H2 & H3).
  destruct (0 <? _)%nat; [|now repeat split].
  split; [|split]; simpl.
  - now apply NoDup_map_sort.
  - exact H2.
  - intros y e Hy%In_sort. now apply H3.
Qed.

Lemma execution_pass_sourced (now : Z) (q : TaskQueue) :
  later_occurrences -> sourced now q (execution_pass now q).
Proof.
  intros Hlater.
  assert (H0 : sourced now q (mkPass q 0 []))
    by (split; simpl; auto; tauto).
  unfold execution_pass. destruct (negb (empty q)); auto.
  pose proof (exec_loop_sourced now q 0 _ Hlater H0) as (H1 & H2).
  destruct (0 <? _)%nat; [|now split].
  split; simpl; auto. intros y Hy%In_sort. auto.
Qed.

Lemma execution_pass_untouched (now : Z) (x : Task) (q : TaskQueue) :
  is_expired x now = false ->
  (forall y, In y q -> tid y = tid x -> y = x) ->
  untouched x (execution_pass now q).
Proof.
  intros Hx Hq.
  assert (H0 : untouched x (mkPass q 0 []))
    by (split; simpl; auto; tauto).
  unfold execution_pass. destruct (negb (empty q)); auto.
  pose proof (exec_loop_untouched now x 0 _ Hx H0) as (H1 & H2).
  destruct (0 <? _)%nat; [|now split].
  split; simpl; auto. intros y Hy%In_sort. auto.
Qed.

Lemma execution_pass_count (now : Z) (q : TaskQueue) :
  p_res (execution_pass now q)
  = List.length (p_trace (execution_pass now q)).
Proof.
  unfold execution_pass. destruct (negb (empty q)); auto.
  assert (H : p_res (exec_loop now 0 (mkPass q 0 []))
              = List.length (p_trace (exec_loop now 0 (mkPass q 0 []))))
    by now apply exec_loop_count.
  destruct (0 <? _)%nat; auto.
Qed.

(** The count a tick returns is the number of work items it invoked. *)
Lemma tick_count (c : Cron) (now : Z) :
  fired (tick c now) = List.length (calls (tick c now)).
Proof. apply execution_pass_count. Qed.

(** What a tick executes was due, at the accepted time, in the queue the
    tick started from. *)
Lemma tick_sourced (c : Cron) (now : Z) (e : event) :
  later_occurrences ->
  In e (calls (tick c now)) ->
  exists x, In x (tasks c) /\ e = execute x (debounce c now)
            /\ is_expired x (debounce c now) = true.
Proof.
  intros Hlater He. unfold tick in He. simpl in He.
  destruct (execution_pass_sourced (debounce c now)
              (drift_correction c (debounce c now)) Hlater) as [_ H].
  destruct (H e He) as (x & Hx & -> & Hexp).
  exists x. repeat split; auto. eapply drift_correction_due; eauto.
Qed.

(** What a tick executed is, afterwards, due later than one second after
    the accepted time. *)
Lemma tick_rescheduled (c : Cron) (now : Z) :
  later_occurrences -> NoDup (tids c) ->
  NoDup (tids (engine (tick c now)))
  /\ (forall e, In e (calls (tick c now)) ->
                ev_due e <= last_tick (engine (tick c now)))
  /\ (forall y e, In y (tasks (engine (tick c now))) ->
                  In e (calls (tick c now)) ->
                  tid y = ev_tid e -> valid y = true ->
                  last_tick (engine (tick c now)) + one_second
                  < next_fire y).
Proof.
  intros Hlater Hnd.
  apply (execution_pass_rescheduled (debounce c now)
           (drift_correction c (debounce c now)) Hlater).
  now rewrite drift_correction_tid.
Qed.

End Tick_facts.

(** ** Tasks that wait across a sequence of ticks *)

Section Waiting_facts.

Context {ext : Collaborators} {sorter : Sorter}.

Lemma set_at_other (i : nat) (t t' x : Task) (c : TaskQueue) :
  at_ c i = Some t -> x <> t -> In x c -> In x (set_at i t' c).
Proof.
  unfold at_. revert i.
  induction c as [|z c IH]; intros [|i]; simpl; try discriminate.
  - intros [= ->] Hne [->|H]; [congruence|now right].
  - intros Hat Hne [->|H]; [now left|]. right. now apply IH.
Qed.

Lemma erase_first_other (p : Task -> bool) (x : Task) (c : TaskQueue) :
  p x = false -> In x c -> In x (erase_first p c).
Proof.
  intros Hp. induction c as [|z c IH]; simpl; auto.
  intros [->|H].
  - rewrite Hp. now left.
  - destruct (p z); simpl; auto.
Qed.

(** With unique names, a task that is not due stays in the queue. *)
Definition kept (x : Task) (p : pass) : Prop :=
  In x (p_queue p) /\ NoDup (map name (p_queue p)).

Lemma visit_kept (now : Z) (x : Task) (i : nat) (p : pass) (t : Task) :
  is_expired x now = false ->
  at_ (p_queue p) i = Some t ->
  kept x p -> kept x (visit now i p).
Proof.
  intros Hx Hat (Hin & Hnd).
  destruct (visit_cases now i p t Hat)
    as [[_ ->]|(Hexp & t' & ok & Hc & ->)]; [now split|].
  pose proof (calculate_next_fst_name _ _ _ _ Hc) as Hname.
  assert (Hne : x <> t) by congruence.
  split; simpl; [|eapply NoDup_visited; eauto].
  assert (H1 : In x (set_at i t' (p_queue p)))
    by (eapply set_at_other; eauto).
  destruct ok; auto.
  apply erase_first_other; auto.
  apply String.eqb_neq. rewrite Hname. intros E. apply Hne.
  symmetry. eapply (NoDup_map_eq name); eauto. eapply at_In; eauto.
Qed.

Lemma execution_pass_kept (now : Z) (x : Task) (q : TaskQueue) :
  is_expired x now = false ->
  In x q -> NoDup (map name q) ->
  kept x (execution_pass now q).
Proof.
  intros Hx Hin Hnd.
  assert (H0 : kept x (mkPass q 0 [])) by now split.
  unfold execution_pass. destruct (negb (empty q)); auto.
  assert (H : kept x (exec_loop now 0 (mkPass q 0 []))).
  { revert H0. apply exec_loop_invariant.
    intros j p t. now apply visit_kept. }
  destruct H as [H1 H2].
  destruct (0 <? _)%nat; [|now split].
  split; simpl; [now apply sort_In|now apply NoDup_map_sort].
Qed.

Lemma not_expired_accepted (x : Task) (last now : Z) :
  is_expired x last = false -> is_expired x now = false ->
  is_expired x (accepted last now) = false.
Proof. destruct (accepted_cases last now) as [-> | ->]; auto. Qed.

(** A task that is due neither at the last tick nor at any tick of a
    sequence without a clock correction is not executed and not changed
    by the sequence. *)
Lemma waiting_task_untouched (nows : list Z) (c : Cron) (x : Task) :
  first_tick c = false ->
  (forall y, In y (tasks c) -> tid y = tid x -> y = x) ->
  is_expired x (last_tick c) = false ->
  small_drift (last_tick c) nows ->
  Forall (fun now => is_expired x now = false) nows ->
  (forall e, In e (snd (ticks c nows)) -> ev_tid e <> tid x)
  /\ (forall y, In y (tasks (fst (ticks c nows))) ->
                tid y = tid x -> y = x).
Proof.
  revert c. induction nows as [|now rest IH]; intros c Hf Hq Hlast Hd Hall.
  - simpl. split; auto.
  - simpl in Hd. destruct Hd as [Hd%accepted_drift Hrest].
    inversion Hall as [|? ? Hnow Hall']; subst.
    pose proof (not_expired_accepted x _ _ Hlast Hnow) as Hacc.
    assert (Hdeb : debounce c now = accepted (last_tick c) now)
      by now apply debounce_accepted.
    destruct (execution_pass_untouched _ x (tasks c) Hacc Hq)
      as [Hq' Htr'].
    assert (Htick : tick c now
                    = mkOutcome
                        (mkCron (p_queue (execution_pass
                                            (accepted (last_tick c) now)
                                            (tasks c)))
                                false (accepted (last_tick c) now)
                                (next_tid c))
                        (p_res (execution_pass
                                  (accepted (last_tick c) now) (tasks c)))
                        (p_trace (execution_pass
                                    (accepted (last_tick c) now)
                                    (tasks c)))).
    { unfold tick. rewrite Hdeb, drift_correction_small; auto. }
    cbn [ticks]. rewrite Htick. cbn [engine calls].
    match goal with |- context [ticks ?c' rest] =>
      specialize (IH c' eq_refl Hq' Hacc Hrest Hall');
      destruct (ticks c' rest) as [c'' tr] end.
    simpl in *. destruct IH as [IH1 IH2]. split; auto.
    intros e [He|He]%in_app_or; auto.
Qed.

(** With unique names it also stays a member of the queue. *)
Lemma waiting_task_kept (nows : list Z) (c : Cron) (x : Task) :
  first_tick c = false ->
  NoDup (names c) -> In x (tasks c) ->
  is_expired x (last_tick c) = false ->
  small_drift (last_tick c) nows ->
  Forall (fun now => is_expired x now = false) nows ->
  In x (tasks (fst (ticks c nows))).
Proof.
  revert c. induction nows as [|now rest IH];
    intros c Hf Hnd Hin Hlast Hd Hall.
  - exact Hin.
  - simpl in Hd. destruct Hd as [Hd%accepted_drift Hrest].
    inversion Hall as [|? ? Hnow Hall']; subst.
    pose proof (not_expired_accepted x _ _ Hlast Hnow) as Hacc.
    assert (Hdeb : debounce c now = accepted (last_tick c) now)
      by now apply debounce_accepted.
    destruct (execution_pass_kept _ x (tasks c) Hacc Hin Hnd)
      as [Hin' Hnd'].
    cbn [ticks]. unfold tick. rewrite Hdeb, drift_correction_small; auto.
    cbn [engine calls].
    match goal with |- context [ticks ?c' rest] =>
      specialize (IH c' eq_refl Hnd' Hin' Hacc Hrest Hall');
      destruct (ticks c' rest) as [c'' tr] end.
    exact IH.
Qed.

End Waiting_facts.

(** ** Names and identities in the queue *)

Section Membership_facts.

Context {ext : Collaborators} {sorter : Sorter}.

Variable A : Type.
Variable f : Task -> A.
Hypothesis f_stable : forall t from, f (fst (calculate_next t from)) = f t.

Lemma incl_map_erase_first (p : Task -> bool) (c : TaskQueue) :
  incl (map f (erase_first p c)) (map f c).
Proof.
  intros a (y & <- & Hy)%in_map_iff. apply in_map.
  eapply In_erase_first; eauto.
Qed.

Lemma visit_distinct (now : Z) (i : nat) (p : pass) :
  NoDup (map f (p_queue p)) -> NoDup (map f (p_queue (visit now i p))).
Proof.
  intros Hnd. unfold visit. destruct (at_ (p_queue p) i) as [t|] eqn:Hat; auto.
  destruct (is_expired t now); auto.
  destruct (calculate_next t (now + one_second)) as [t' ok] eqn:Hc.
  simpl. eapply NoDup_visited; eauto.
  now rewrite <- (f_stable t (now + one_second)), Hc.
Qed.

Lemma visit_incl (now : Z) (i : nat) (p : pass) :
  incl (map f (p_queue (visit now i p))) (map f (p_queue p)).
Proof.
  unfold visit. destruct (at_ (p_queue p) i) as [t|] eqn:Hat;
    [|apply incl_refl].
  destruct (is_expired t now); [|apply incl_refl].
  destruct (calculate_next t (now + one_second)) as [t' ok] eqn:Hc.
  simpl.
  assert (E : map f (set_at i t' (p_queue p)) = map f (p_queue p)).
  { eapply map_set_at; eauto.
    now rewrite <- (f_stable t (now + one_second)), Hc. }
  destruct ok.
  - rewrite E. apply incl_refl.
  - rewrite <- E. apply incl_map_erase_first.
Qed.

Lemma exec_loop_distinct (now : Z) (i : nat) (p : pass) :
  NoDup (map f (p_queue p)) ->
  NoDup (map f (p_queue (exec_loop now i p))).
Proof.
  apply (exec_loop_invariant (fun q => NoDup (map f (p_queue q)))).
  intros j q t _. apply visit_distinct.
Qed.

Lemma exec_loop_incl (now : Z) (i : nat) (p : pass) :
  incl (map f (p_queue (exec_loop now i p))) (map f (p_queue p)).
Proof.
  apply (exec_loop_invariant
           (fun q => incl (map f (p_queue q)) (map f (p_queue p))));
    [|apply incl_refl].
  intros j q t _ H. eapply incl_tran; [apply visit_incl|exact H].
Qed.

Lemma incl_map_sort (c : TaskQueue) : incl (map f (sort c)) (map f c).
Proof.
  intros a (y & <- & Hy)%in_map_iff. apply in_map. now apply In_sort.
Qed.

Lemma execution_pass_distinct (now : Z) (q : TaskQueue) :
  NoDup (map f q) -> NoDup (map f (p_queue (execution_pass now q))).
Proof.
  intros Hnd. unfold execution_pass. destruct (negb (empty q)); auto.
  pose proof (exec_loop_distinct now 0 (mkPass q 0 []) Hnd).
  destruct (0 <? _)%nat; auto. simpl. now apply NoDup_map_sort.
Qed.

Lemma execution_pass_incl (now : Z) (q : TaskQueue) :
  incl (map f (p_queue (execution_pass now q))) (map f q).
Proof.
  unfold execution_pass. destruct (negb (empty q)); [|apply incl_refl].
  pose proof (exec_loop_incl now 0 (mkPass q 0 [])).
  destruct (0 <? _)%nat; auto. simpl.
  eapply incl_tran; [apply incl_map_sort|auto].
Qed.

Lemma drift_correction_map (c : Cron) (now : Z) :
  map f (drift_correction c now) = map f (tasks c).
Proof.
  destruct (drift_correction_cases c now) as [->| ->]; auto.
  rewrite map_map. apply map_ext. intros t. apply f_stable.
Qed.

Lemma tick_distinct (c : Cron) (now : Z) :
  NoDup (map f (tasks c)) -> NoDup (map f (tasks (engine (tick c now)))).
Proof.
  intros H. unfold tick. simpl. apply execution_pass_distinct.
  now rewrite drift_correction_map.
Qed.

Lemma tick_incl (c : Cron) (now : Z) :
  incl (map f (tasks (engine (tick c now)))) (map f (tasks c)).
Proof.
  unfold tick. simpl. rewrite <- (drift_correction_map c (debounce c now)).
  apply execution_pass_incl.
Qed.

Lemma recalculate_from_map (clock : nat -> Z) (k : nat) (c : TaskQueue) :
  map f (recalculate_from clock k c) = map f c.
Proof.
  revert k. induction c as [|t c IH]; intros k; simpl; auto.
  now rewrite f_stable, IH.
Qed.

Lemma recalculate_schedule_distinct (c : Cron) (clock : nat -> Z) :
  NoDup (map f (tasks c)) ->
  NoDup (map f (tasks (recalculate_schedule c clock))).
Proof.
  intros H. simpl. apply NoDup_map_sort.
  now rewrite recalculate_from_map.
Qed.

Lemma recalculate_schedule_incl (c : Cron) (clock : nat -> Z) :
  incl (map f (tasks (recalculate_schedule c clock))) (map f (tasks c)).
Proof.
  simpl. eapply incl_tran; [apply incl_map_sort|].
  rewrite recalculate_from_map. apply incl_refl.
Qed.

Lemma remove_schedule_distinct (c : Cron) (n : string) :
  NoDup (map f (tasks c)) ->
  NoDup (map f (tasks (remove_schedule c n))).
Proof. intros H. simpl. now apply NoDup_map_erase_first. Qed.

Lemma remove_schedule_incl (c : Cron) (n : string) :
  incl (map f (tasks (remove_schedule c n))) (map f (tasks c)).
Proof. simpl. apply incl_map_erase_first. Qed.

End Membership_facts.

(** ** Registration *)

Section Registration_facts.

Context {ext : Collaborators} {sorter : Sorter}.

(** The validation loop stops at the first invalid entry. *)
Lemma collect_invalid (clock : nat -> Z) (entries : list (string * string))
      (w : TaskFunction) (n s : string) :
  first_invalid entries = Some (n, s) ->
  forall k id acc, exists l,
    collect clock k id entries w acc = (false, n, s, l).
Proof.
  unfold first_invalid.
  induction entries as [|[n0 s0] rest IH]; simpl; [discriminate|].
  destruct (is_valid (create s0)); simpl.
  - intros H k id acc.
    destruct (calculate_next _ (clock k)) as [t' ok]. now apply IH.
  - intros [= -> ->] k id acc. now exists acc.
Qed.

(** Without an invalid entry it gathers the runnable tasks. *)
Lemma collect_valid (clock : nat -> Z) (entries : list (string * string))
      (w : TaskFunction) :
  first_invalid entries = None ->
  forall k id acc,
    collect clock k id entries w acc
    = (true, EmptyString, EmptyString,
       acc ++ runnable clock k (id + List.length acc) entries w).
Proof.
  unfold first_invalid.
  induction entries as [|[n0 s0] rest IH]; simpl; intros H k id acc.
  - now rewrite app_nil_r.
  - destruct (is_valid (create s0)); simpl in *; [|discriminate].
    unfold calculate_next, make_task. simpl.
    destruct (next_occurrence (create s0) (clock k)) as [nf|].
    + rewrite IH by auto. rewrite length_app, <- app_assoc. simpl.
      repeat f_equal. lia.
    + now rewrite IH.
Qed.

Lemma runnable_tids (clock : nat -> Z) (entries : list (string * string))
      (w : TaskFunction) (k id : nat) :
  map tid (runnable clock k id entries w)
  = seq id (List.length (runnable clock k id entries w)).
Proof.
  revert k id. induction entries as [|[n s] rest IH]; intros k id; simpl; auto.
  destruct (next_occurrence (create s) (clock k)); simpl; auto.
  now rewrite IH.
Qed.

Lemma runnable_names_incl (clock : nat -> Z)
      (entries : list (string * string)) (w : TaskFunction) (k id : nat) :
  incl (map name (runnable clock k id entries w)) (map fst entries).
Proof.
  revert k id. induction entries as [|[n s] rest IH]; intros k id; simpl.
  - apply incl_refl.
  - destruct (next_occurrence (create s) (clock k)); simpl.
    + apply incl_cons; [now left|]. apply incl_tl, IH.
    + apply incl_tl, IH.
Qed.

Lemma runnable_names_distinct (clock : nat -> Z)
      (entries : list (string * string)) (w : TaskFunction) (k id : nat) :
  NoDup (map fst entries) ->
  NoDup (map name (runnable clock k id entries w)).
Proof.
  revert k id. induction entries as [|[n s] rest IH]; intros k id; simpl.
  - constructor.
  - intros H. inversion H as [|? ? Hn Hrest]; subst.
    destruct (next_occurrence (create s) (clock k)); simpl; auto.
    constructor; auto. intros Hin. apply Hn.
    eapply runnable_names_incl; eauto.
Qed.

(** The single form, case by case. *)
Lemma add_schedule_cases (c : Cron) (clock_now : Z) (n s : string)
      (w : TaskFunction) :
  (is_valid (create s) = false /\ add_schedule c clock_now n s w = (c, false))
  \/ (is_valid (create s) = true
      /\ next_occurrence (create s) clock_now = None
      /\ add_schedule c clock_now n s w = (c, true))
  \/ (is_valid (create s) = true
      /\ exists nf,
           next_occurrence (create s) clock_now = Some nf
           /\ add_schedule c clock_now n s w
              = (mkCron (sort (tasks c
                               ++ [mkTask (next_tid c) n (create s) w nf
                                          true]))
                        (first_tick c) (last_tick c) (S (next_tid c)),
                 true)).
Proof.
  unfold add_schedule, calculate_next, make_task, push. simpl.
  destruct (is_valid (create s)); [right|left; auto].
  destruct (next_occurrence (create s) clock_now) as [nf|];
    [right|left; auto].
  split; auto. now exists nf.
Qed.

(** The bulk form, case by case. *)
Lemma add_schedules_cases (c : Cron) (clock : nat -> Z)
      (entries : list (string * string)) (w : TaskFunction) :
  add_schedules c clock entries w
  = match first_invalid entries with
    | Some (n, s) => (c, (false, n, s))
    | None =>
        let new := runnable clock 0 (next_tid c) entries w in
        if empty new then (c, (true, EmptyString, EmptyString))
        else (mkCron (sort (tasks c ++ new)) (first_tick c) (last_tick c)
                     (next_tid c + List.length new),
              (true, EmptyString, EmptyString))
    end.
Proof.
  unfold add_schedules.
  destruct (first_invalid entries) as [[n s]|] eqn:E.
  - destruct (collect_invalid clock entries w n s E 0%nat (next_tid c) [])
      as [l ->]. reflexivity.
  - rewrite collect_valid by auto. simpl. rewrite Nat.add_0_r.
    destruct (runnable clock 0 (next_tid c) entries w); reflexivity.
Qed.

Lemma Permutation_tasks_map {B} (g : Task -> B) (c : TaskQueue) :
  Permutation (map g c) (map g (sort c)).
Proof. apply Permutation_map, sort_permutation. Qed.

(** Identities stay unique under every operation. *)
Lemma apply_well_formed (c : Cron) (o : operation) :
  well_formed c -> well_formed (apply c o).
Proof.
  intros [Hnd Hlt].
  assert (Hshrink : forall c', next_tid c' = next_tid c ->
            NoDup (tids c') -> incl (tids c') (tids c) -> well_formed c').
  { intros c' E H1 H2. split; auto. rewrite E.
    rewrite Forall_forall in *. auto. }
  destruct o as [clock_now n s w|clock entries w|n| |clock|now]; simpl.
  - destruct (add_schedule_cases c clock_now n s w)
      as [[_ ->]|[(_ & _ & ->)|(_ & nf & _ & ->)]];
      try (now split).
    unfold well_formed, tids. simpl.
    assert (P : Permutation (tids c ++ [next_tid c])
                  (map tid (sort (tasks c
                     ++ [mkTask (next_tid c) n (create s) w nf true])))).
    { rewrite <- Permutation_tasks_map, map_app. reflexivity. }
    split.
    + eapply Permutation_NoDup; [exact P|].
      apply NoDup_app; [auto|repeat constructor; auto|].
      intros i Hi [<-|[]]. rewrite Forall_forall in Hlt.
      apply Hlt in Hi. lia.
    + eapply Permutation_Forall; [exact P|].
      apply Forall_app. split.
      * eapply Forall_impl; [|exact Hlt]. simpl. intros; lia.
      * repeat constructor.
  - rewrite add_schedules_cases.
    destruct (first_invalid entries) as [[n s]|]; [now split|].
    simpl. set (new := runnable clock 0 (next_tid c) entries w).
    destruct (empty new) eqn:En; [now split|].
    unfold well_formed, tids. simpl.
    assert (P : Permutation (tids c ++ seq (next_tid c) (List.length new))
                  (map tid (sort (tasks c ++ new)))).
    { rewrite <- Permutation_tasks_map, map_app.
      unfold new at 2. now rewrite runnable_tids. }
    split.
    + eapply Permutation_NoDup; [exact P|].
      apply NoDup_app; [auto|apply seq_NoDup|].
      intros i Hi Hi'%in_seq. rewrite Forall_forall in Hlt.
      apply Hlt in Hi. lia.
    + eapply Permutation_Forall; [exact P|].
      apply Forall_app. split.
      * eapply Forall_impl; [|exact Hlt]. simpl. intros; lia.
      * apply Forall_forall. intros i Hi%in_seq. lia.
  - apply Hshrink; auto.
    + now apply (remove_schedule_distinct _ tid).
    + apply (remove_schedule_incl _ tid).
  - split; constructor.
  - apply Hshrink; auto.
    + apply (recalculate_schedule_distinct _ tid calculate_next_tid); auto.
    + apply (recalculate_schedule_incl _ tid calculate_next_tid).
  - apply Hshrink; auto.
    + apply (tick_distinct _ tid calculate_next_tid); auto.
    + apply (tick_incl _ tid calculate_next_tid).
Qed.

Lemma run_well_formed (ops : list operation) (c : Cron) :
  well_formed c -> well_formed (run c ops).
Proof.
  revert c. induction ops as [|o ops IH]; intros c H; simpl; auto.
  apply IH. now apply apply_well_formed.
Qed.

Lemma init_well_formed : well_formed init.
Proof. split; constructor. Qed.

(** Names stay unique under every operation that registers no name
    already in the queue. *)
Lemma apply_names_distinct (c : Cron) (o : operation) :
  NoDup (names c) -> fresh c o -> NoDup (names (apply c o)).
Proof.
  intros Hnd Hfresh.
  destruct o as [clock_now n s w|clock entries w|n| |clock|now]; simpl.
  - destruct (add_schedule_cases c clock_now n s w)
      as [[_ ->]|[(_ & _ & ->)|(_ & nf & _ & ->)]]; auto.
    unfold names. simpl.
    eapply Permutation_NoDup; [apply Permutation_tasks_map|].
    rewrite map_app. simpl.
    apply NoDup_app; [auto|repeat constructor; auto|].
    intros m Hm [<-|[]]. now apply Hfresh.
  - rewrite add_schedules_cases.
    destruct (first_invalid entries) as [[n s]|]; auto.
    simpl. set (new := runnable clock 0 (next_tid c) entries w).
    destruct (empty new) eqn:En; auto.
    unfold names. simpl. destruct Hfresh as [Hd Hf].
    eapply Permutation_NoDup; [apply Permutation_tasks_map|].
    rewrite map_app.
    apply NoDup_app; auto.
    + now apply runnable_names_distinct.
    + intros m Hm Hm'. apply (Hf m); auto.
      eapply runnable_names_incl; eauto.
  - now apply (remove_schedule_distinct _ name).
  - constructor.
  - now apply (recalculate_schedule_distinct _ name calculate_next_name).
  - now apply (tick_distinct _ name calculate_next_name).
Qed.

Lemma run_names_distinct (ops : list operation) (c : Cron) :
  NoDup (names c) -> legal c ops -> NoDup (names (run c ops)).
Proof.
  revert c. induction ops as [|o ops IH]; intros c H Hl; simpl; auto.
  destruct Hl as [Hf Hl]. apply IH; auto.
  now apply apply_names_distinct.
Qed.

Lemma legal_firstn (k : nat) (ops : list operation) (c : Cron) :
  legal c ops -> legal c (firstn k ops).
Proof.
  revert c ops. induction k as [|k IH]; intros c [|o ops]; simpl; auto.
  intros [Hf Hl]. split; auto.
Qed.

(** Every engine reached from the empty one has unique identities. *)
Lemma reachable_tids_unique (ops : list operation) :
  NoDup (tids (run init ops)).
Proof. apply run_well_formed, init_well_formed. Qed.

End Registration_facts.

(** ** Where the queue stays sorted *)

Section Sorted_facts.

Context {ext : Collaborators} {sorter : Sorter}.

Lemma erase_first_sorted (p : Task -> bool) (c : TaskQueue) :
  StronglySorted by_next_fire c ->
  StronglySorted by_next_fire (erase_first p c).
Proof.
  induction 1 as [|x c Hc IH Hx]; simpl; [constructor|].
  destruct (p x); auto. constructor; auto.
  rewrite Forall_forall in *. intros y Hy%In_erase_first. auto.
Qed.

(** A pass that executes nothing leaves the queue as it was. *)
Lemma exec_loop_nothing_fired (now : Z) (i : nat) (q : TaskQueue) :
  p_res (exec_loop now i (mkPass q 0 [])) = 0%nat ->
  p_queue (exec_loop now i (mkPass q 0 [])) = q.
Proof.
  apply (exec_loop_invariant
           (fun p => p_res p = 0%nat -> p_queue p = q)); auto.
  intros j p t Hat H.
  destruct (visit_cases now j p t Hat)
    as [[_ ->]|(_ & t' & ok & _ & ->)]; auto.
  discriminate.
Qed.

Lemma execution_pass_sorted (now : Z) (q : TaskQueue) :
  StronglySorted by_next_fire q ->
  StronglySorted by_next_fire (p_queue (execution_pass now q)).
Proof.
  intros H. unfold execution_pass. destruct (negb (empty q)); auto.
  pose proof (exec_loop_nothing_fired now 0 q) as H0.
  destruct (p_res (exec_loop now 0 (mkPass q 0 []))) as [|n]; simpl.
  - now rewrite H0.
  - apply sort_sorted.
Qed.

(** A tick that is not a clock correction of three hours or more. *)
Definition ordinary (c : Cron) (o : operation) : Prop :=
  match o with
  | Tick now =>
      first_tick c = true
      \/ Z.abs (debounce c now - last_tick c) < three_hours
  | _ => True
  end.

(** Every operation except the tick after a clock correction keeps a
    sorted queue sorted. *)
Lemma apply_sorted (c : Cron) (o : operation) :
  StronglySorted by_next_fire (tasks c) -> ordinary c o ->
  StronglySorted by_next_fire (tasks (apply c o)).
Proof.
  intros H Ho.
  destruct o as [clock_now n s w|clock entries w|n| |clock|now]; simpl.
  - destruct (add_schedule_cases c clock_now n s w)
      as [[_ ->]|[(_ & _ & ->)|(_ & nf & _ & ->)]]; auto.
    apply sort_sorted.
  - rewrite add_schedules_cases.
    destruct (first_invalid entries) as [[n s]|]; auto. simpl.
    destruct (empty _); auto. apply sort_sorted.
  - now apply erase_first_sorted.
  - constructor.
  - apply sort_sorted.
  - apply execution_pass_sorted.
    assert (E : drift_correction c (debounce c now) = tasks c).
    { destruct Ho as [Ho|Ho].
      - unfold drift_correction. now rewrite Ho.
      - now apply drift_correction_small. }
    now rewrite E.
Qed.

End Sorted_facts.

(** * The claims *)

Section Claims.

Context {ext : Collaborators} {sorter : Sorter}.

(** C2.  A tick that is not the first and comes less than one second
    after (or before) the last accepted tick behaves exactly as a tick at
    the last accepted time, for every engine and every evaluator: it
    returns the same engine, count and invocations, and records the last
    accepted time again.  Consequently, with unique task identities and
    an evaluator that returns later occurrences,
    a tick at [t] followed by a tick less than a second away (for
    instance at [t + 500ms]) never executes the same occurrence twice:
    whatever both ticks execute of one task are occurrences with
    different due times. *)
Theorem sub_second_tick_is_clamped (c : Cron) (now : Z)
        (c0 : Cron) (t d : Z) :
  first_tick c = false ->
  Z.abs (now - last_tick c) < one_second ->
  tick c now = tick c (last_tick c)
  /\ last_tick (engine (tick c now)) = last_tick c
  /\ (later_occurrences ->
      NoDup (tids c0) ->
      Z.abs d < one_second ->
      forall e1 e2,
        In e1 (calls (tick c0 t)) ->
        In e2 (calls (tick (engine (tick c0 t)) (t + d))) ->
        ev_tid e1 = ev_tid e2 -> ev_due e1 < ev_due e2).
Proof.
  intros Hf Hnear.
  assert (E1 : debounce c now = last_tick c).
  { rewrite debounce_accepted by auto. now apply accepted_near. }
  assert (E2 : debounce c (last_tick c) = last_tick c).
  { rewrite debounce_accepted by auto. apply accepted_near.
    rewrite Z.sub_diag. reflexivity. }
  split; [|split].
  - unfold tick. now rewrite E1, E2.
  - now rewrite tick_last_tick.
  - intros Hlater Hnd Hd e1 e2 H1 H2 E.
    destruct (tick_rescheduled c0 t Hlater Hnd) as (_ & Hdue & Hre).
    destruct (tick_sourced _ _ _ Hlater H2) as (x & Hx & -> & Hexp).
    simpl in E |- *.
    unfold is_expired in Hexp. apply andb_true_iff in Hexp as [Hv _].
    specialize (Hre x e1 Hx H1 (eq_sym E) Hv).
    specialize (Hdue e1 H1). pose proof one_second_pos. lia.
Qed.

(** C4.  A tick that is not the first and is three hours or more away
    from the last tick runs its execution pass over the queue in which
    every task has been recomputed by [calculate_next(now)]: a task whose
    rule has an occurrence after [now] gets that occurrence as next fire
    time, whatever it was before, and a task without one is marked as
    having none.  With an evaluator that returns later occurrences the
    pass then finds nothing due and the tick leaves exactly the
    recomputed queue. *)
Theorem clock_correction_recomputes_every_task (c : Cron) (now : Z) :
  first_tick c = false ->
  three_hours <= Z.abs (now - last_tick c) ->
  let recomputed := map (fun t => fst (calculate_next t now)) (tasks c) in
  let p := execution_pass now recomputed in
  tick c now
  = mkOutcome (mkCron (p_queue p) false now (next_tid c))
              (p_res p) (p_trace p)
  /\ Forall2 (fun t t' =>
                tid t' = tid t /\ name t' = name t
                /\ match next_occurrence (schedule t) now with
                   | Some nf => valid t' = true /\ next_fire t' = nf
                   | None => valid t' = false
                   end)
             (tasks c) recomputed
  /\ (later_occurrences ->
      tick c now
      = mkOutcome (mkCron recomputed false now (next_tid c)) 0 []).
Proof.
  intros Hf Hfar recomputed p.
  assert (E1 : debounce c now = now).
  { rewrite debounce_accepted by auto. apply accepted_far.
    pose proof one_second_lt_three_hours. lia. }
  assert (E2 : drift_correction c now = recomputed)
    by now apply drift_correction_large.
  assert (Htick : tick c now
                  = mkOutcome (mkCron (p_queue p) false now (next_tid c))
                              (p_res p) (p_trace p)).
  { unfold tick. rewrite E1, E2. reflexivity. }
  split; [exact Htick|split].
  - subst recomputed. generalize (tasks c) as q. clear.
    induction q as [|t q IH]; simpl; constructor; auto.
    unfold calculate_next.
    destruct (next_occurrence (schedule t) now); simpl; repeat split.
  - intros Hlater. rewrite Htick. subst p.
    rewrite execution_pass_idle; auto.
    intros t' (t & <- & _)%in_map_iff.
    now apply recomputed_not_expired.
Qed.

(** C5.  Take a task [x] that fired in the tick at [t0], as it stands in
    the queue afterwards with its newly computed next fire time.  Over
    every following sequence of ticks in which no tick is three hours or
    more away from the one before it (the clock may move forward or
    backward) and every tick time is before the next fire time of [x],
    no tick executes [x], and every task in the queue with the identity
    of [x] is [x] itself, with its next fire time untouched; with unique
    names [x] also remains in the queue. *)
Theorem fired_task_waits_for_next_fire (c0 : Cron) (t0 : Z)
        (nows : list Z) (x : Task) :
  later_occurrences ->
  NoDup (tids c0) ->
  In x (tasks (engine (tick c0 t0))) ->
  (exists e, In e (calls (tick c0 t0)) /\ ev_tid e = tid x) ->
  small_drift (last_tick (engine (tick c0 t0))) nows ->
  Forall (fun now => now < next_fire x) nows ->
  (forall e, In e (snd (ticks (engine (tick c0 t0)) nows)) ->
             ev_tid e <> tid x)
  /\ (forall y, In y (tasks (fst (ticks (engine (tick c0 t0)) nows))) ->
                tid y = tid x -> y = x)
  /\ (NoDup (names c0) ->
      In x (tasks (fst (ticks (engine (tick c0 t0)) nows)))).
Proof.
  intros Hlater Hnd Hx (e & He & Hex) Hdrift Hbefore.
  destruct (tick_rescheduled c0 t0 Hlater Hnd) as (Hnd1 & _ & Hre).
  assert (Hlast : is_expired x (last_tick (engine (tick c0 t0))) = false).
  { unfold is_expired. destruct (valid x) eqn:Hv; auto. cbn [andb].
    specialize (Hre x e Hx He (eq_sym Hex) Hv).
    pose proof one_second_pos. apply Z.leb_gt. lia. }
  assert (Hall : Forall (fun now => is_expired x now = false) nows).
  { eapply Forall_impl; [|exact Hbefore]. simpl. intros now Hnow.
    unfold is_expired. apply andb_false_iff. right.
    apply Z.leb_gt. lia. }
  assert (Hq : forall y, In y (tasks (engine (tick c0 t0))) ->
                         tid y = tid x -> y = x).
  { intros y Hy E. eapply (NoDup_map_eq tid); eauto. }
  destruct (waiting_task_untouched nows _ x (tick_first_tick c0 t0)
              Hq Hlast Hdrift Hall) as [H1 H2].
  split; [exact H1|split; [exact H2|]].
  intros Hnames. apply waiting_task_kept; auto.
  now apply (tick_distinct _ name calculate_next_name).
Qed.

(** C6, amended.  The bulk [add_schedule] validates every entry before
    it touches the queue.  If a rule is invalid the engine is unchanged
    and the result is [(false, name, rule)] of the first invalid entry in
    iteration order.  If every rule is valid the flag is true, and the
    tasks that have an occurrence after the clock reading are appended
    and the queue sorted once; a task without an occurrence is dropped,
    and when every task is dropped the engine is unchanged. *)
Theorem bulk_add_schedule_all_or_nothing (c : Cron) (clock : nat -> Z)
        (entries : list (string * string)) (w : TaskFunction) :
  add_schedules c clock entries w
  = match first_invalid entries with
    | Some (n, s) => (c, (false, n, s))
    | None =>
        let new := runnable clock 0 (next_tid c) entries w in
        if empty new then (c, (true, EmptyString, EmptyString))
        else (mkCron (sort (push_all new (tasks c)))
                     (first_tick c) (last_tick c)
                     (next_tid c + List.length new),
              (true, EmptyString, EmptyString))
    end.
Proof. apply add_schedules_cases. Qed.

(** C7.  The single [add_schedule] with a rule text that fails
    validation returns false and leaves the engine as it was: the count
    and every next fire time are unchanged. *)
Theorem add_schedule_invalid_rule (c : Cron) (clock_now : Z)
        (n s : string) (w : TaskFunction) :
  is_valid (create s) = false ->
  snd (add_schedule c clock_now n s w) = false
  /\ fst (add_schedule c clock_now n s w) = c
  /\ count (fst (add_schedule c clock_now n s w)) = count c
  /\ map next_fire (tasks (fst (add_schedule c clock_now n s w)))
     = map next_fire (tasks c).
Proof.
  intros H. unfold add_schedule. rewrite H. simpl. auto.
Qed.

(** C8.  [time_until_next] on an empty queue returns
    [std::numeric_limits<std::chrono::minutes>::max()], which is the zero
    duration, not an effectively infinite one; nor would the largest
    number of minutes survive the conversion to clock counts, which wraps
    to minus sixty seconds.  On a non-empty queue it returns
    [time_until_expiry] of the first task. *)
Theorem time_until_next_empty_queue (c : Cron) (clock_now : Z) :
  time_until_next (with_tasks c []) clock_now = 0
  /\ wrap64 (minutes minutes_max) = seconds (-60)
  /\ (forall t q, time_until_next (with_tasks c (t :: q)) clock_now
                  = next_fire t - clock_now).
Proof. repeat split. Qed.

(** C9, amended.  In every sequence of operations, from the empty
    engine, in which no [add_schedule] registers a name already in the
    queue (and a bulk map has distinct names), the queue never contains
    two tasks with the same name. *)
Theorem names_unique_when_registered_fresh (ops : list operation) :
  legal init ops ->
  forall k, NoDup (names (run init (firstn k ops))).
Proof.
  intros Hl k. apply run_names_distinct; [constructor|].
  now apply legal_firstn.
Qed.

(** C10.  The single [add_schedule] returns true whenever the rule text
    passes validation; when [calculate_next(clock.now())] finds no
    occurrence no task is inserted and the engine, hence the count, is
    unchanged. *)
Theorem add_schedule_valid_rule_returns_true (c : Cron) (clock_now : Z)
        (n s : string) (w : TaskFunction) :
  is_valid (create s) = true ->
  snd (add_schedule c clock_now n s w) = true
  /\ (next_occurrence (create s) clock_now = None ->
      fst (add_schedule c clock_now n s w) = c
      /\ count (fst (add_schedule c clock_now n s w)) = count c).
Proof.
  intros H.
  destruct (add_schedule_cases c clock_now n s w)
    as [[H0 _]|[(_ & Hn & ->)|(_ & nf & Hn & ->)]]; simpl.
  - congruence.
  - auto.
  - split; auto. congruence.
Qed.

End Claims.

(** * Scenarios

    The engine run with the demonstration parser and insertion sort. *)

Module Scenarios.

Import Demo.
Local Open Scope string_scope.

Definition clock0 : nat -> Z := fun _ => 0.

(** Two tasks due at 5s and at 10s; the first has no later occurrence. *)
Definition two_due : Cron :=
  run init [Add 0 "first" "once at 5s" tt;
            Add 0 "second" "at 10s and 70s" tt].

(** Two periodic tasks, every five and every four hours, after a first
    tick at time 0. *)
Definition two_periodic : Cron :=
  run init [Add 0 "a" "0 0 */5 * * ?" tt;
            Add 0 "b" "0 0 */4 * * ?" tt;
            Tick 0].

(** The queue of [two_periodic] recomputed from 4h30. *)
Definition recomputed_at_270 : TaskQueue :=
  map (fun t => fst (calculate_next t (minutes 270))) (tasks two_periodic).

(** One task that runs at every full minute. *)
Definition every_minute : Cron :=
  run init [Add 0 "job" "0 * * * * ?" tt].

(** [every_minute] after a first tick at 60s, in which the task fired. *)
Definition after_60s : Cron := engine (tick every_minute (seconds 60)).

(** The task of [every_minute] after it fired at 60s. *)
Definition job_after_60s : Task :=
  mkTask 0 "job" (Every 60000000000) tt (seconds 120) true.

(** Tick times after 60s: forward, then twelve seconds back, then forward
    again, all before 120s. *)
Definition back_and_forth : list Z :=
  [seconds 61; seconds 62; seconds 50; seconds 51; seconds 119].

(** Registration, removal and registration again under the same name. *)
Definition register_remove_register : list operation :=
  [Add 0 "a" "* * * * * ?" tt;
   AddBulk clock0 [("b", "0 * * * * ?"); ("c", "never")] tt;
   Tick (seconds 1);
   Remove "a";
   Add (seconds 1) "a" "0 * * * * ?" tt;
   Recalculate clock0;
   Clear].

Lemma rule_next_later : later_occurrences.
Proof.
  intros r from t. destruct r as [p|l|]; simpl.
  - intros [= <-].
    pose proof (Z.div_mod from (Z.pos p)).
    pose proof (Z.mod_pos_bound from (Z.pos p)). nia.
  - intros H. apply find_some in H as [_ H]. now apply Z.ltb_lt.
  - discriminate.
Qed.

(** C1.  [two_due] holds two tasks that are both due at 10s.  The tick at
    10s executes the first, retires it, and ends the pass without
    visiting the second, which has moved into the vacated slot: it
    returns 1 and the second task is still due afterwards. *)
Theorem tick_skips_task_after_retirement :
  names two_due = ["first"; "second"]
  /\ forallb (fun t => is_expired t (seconds 10)) (tasks two_due) = true
  /\ map ev_name (calls (tick two_due (seconds 10))) = ["first"]
  /\ fired (tick two_due (seconds 10)) = 1%nat
  /\ names (engine (tick two_due (seconds 10))) = ["second"]
  /\ forallb (fun t => is_expired t (seconds 10))
             (tasks (engine (tick two_due (seconds 10)))) = true.
Proof. vm_compute. repeat split. Qed.

(** C3.  [two_periodic] is sorted.  A tick four and a half hours later
    is a clock correction: it recomputes both tasks, fires nothing and
    does not sort, and leaves the task due at 8h in front of the task
    due at 5h; [time_until_next] then reports three and a half hours
    while a task is due in half an hour. *)
Theorem tick_after_clock_correction_leaves_queue_unsorted :
  is_sorted (tasks two_periodic) = true
  /\ fired (tick two_periodic (minutes 270)) = 0%nat
  /\ map next_fire (tasks (engine (tick two_periodic (minutes 270))))
     = [hours 8; hours 5]
  /\ ~ StronglySorted by_next_fire
                      (tasks (engine (tick two_periodic (minutes 270))))
  /\ time_until_next (engine (tick two_periodic (minutes 270)))
                     (minutes 270) = minutes 210.
Proof.
  repeat split; try (vm_compute; reflexivity).
  intros H%is_sorted_spec. vm_compute in H. discriminate.
Qed.

(** C6, as stated, fails: a batch whose only rule is valid but has no
    occurrence reports success and inserts nothing. *)
Lemma bulk_add_drops_task_without_occurrence :
  ~ bulk_inserts_every_task init clock0 [("job", "never")] tt.
Proof.
  intros H. specialize (H eq_refl "job" (or_introl eq_refl)).
  vm_compute in H. exact H.
Qed.

(** C9, as stated, fails: registering the same name twice leaves two
    tasks with that name in the queue. *)
Lemma same_name_registered_twice :
  ~ NoDup (names (run init [Add 0 "job" "* * * * * ?" tt;
                            Add 0 "job" "0 * * * * ?" tt])).
Proof.
  vm_compute. intros H. inversion H as [|? ? Hin _]; subst.
  apply Hin. now left.
Qed.

(** C2 on a run: [every_minute] ticked at 60s and again half a second
    later. *)
Lemma sub_second_tick_is_clamped_witness :
  tick after_60s (seconds 60 + milliseconds 500)
  = tick after_60s (last_tick after_60s)
  /\ last_tick (engine (tick after_60s (seconds 60 + milliseconds 500)))
     = last_tick after_60s
  /\ (forall e1 e2,
        In e1 (calls (tick every_minute (seconds 60))) ->
        In e2 (calls (tick (engine (tick every_minute (seconds 60)))
                           (seconds 60 + milliseconds 500))) ->
        ev_tid e1 = ev_tid e2 -> ev_due e1 < ev_due e2).
Proof.
  destruct (sub_second_tick_is_clamped
              after_60s (seconds 60 + milliseconds 500)
              every_minute (seconds 60) (milliseconds 500))
    as (H1 & H2 & H3).
  - reflexivity.
  - vm_compute. reflexivity.
  - split; [exact H1|split; [exact H2|]]. apply H3.
    + exact rule_next_later.
    + vm_compute. repeat constructor. simpl. tauto.
    + vm_compute. reflexivity.
Defined.

(** C4 on a run: [two_periodic] ticked four and a half hours after its
    first tick. *)
Lemma clock_correction_recomputes_every_task_witness :
  tick two_periodic (minutes 270)
  = mkOutcome
      (mkCron (p_queue (execution_pass (minutes 270) recomputed_at_270))
              false (minutes 270) (next_tid two_periodic))
      (p_res (execution_pass (minutes 270) recomputed_at_270))
      (p_trace (execution_pass (minutes 270) recomputed_at_270))
  /\ Forall2 (fun t t' =>
                tid t' = tid t /\ name t' = name t
                /\ match next_occurrence (schedule t) (minutes 270) with
                   | Some nf => valid t' = true /\ next_fire t' = nf
                   | None => valid t' = false
                   end)
             (tasks two_periodic) recomputed_at_270
  /\ (later_occurrences ->
      tick two_periodic (minutes 270)
      = mkOutcome (mkCron recomputed_at_270 false (minutes 270)
                          (next_tid two_periodic)) 0 []).
Proof.
  apply (clock_correction_recomputes_every_task two_periodic (minutes 270)).
  - reflexivity.
  - vm_compute. discriminate.
Defined.

(** C5 on a run: the job that fired at 60s is left alone by the ticks of
    [back_and_forth]. *)
Lemma fired_task_waits_for_next_fire_witness :
  (forall e, In e (snd (ticks after_60s back_and_forth)) ->
             ev_tid e <> tid job_after_60s)
  /\ (forall y, In y (tasks (fst (ticks after_60s back_and_forth))) ->
                tid y = tid job_after_60s -> y = job_after_60s)
  /\ (NoDup (names every_minute) ->
      In job_after_60s (tasks (fst (ticks after_60s back_and_forth)))).
Proof.
  apply (fired_task_waits_for_next_fire every_minute (seconds 60)
           back_and_forth job_after_60s).
  - exact rule_next_later.
  - vm_compute. repeat constructor. simpl. tauto.
  - vm_compute. now left.
  - eexists. split; [vm_compute; left; reflexivity|reflexivity].
  - vm_compute. repeat split.
  - repeat constructor.
Defined.

(** C7 on a run: a rule text the parser rejects. *)
Lemma add_schedule_invalid_rule_witness :
  snd (add_schedule two_due 0 "job" "not a rule" tt) = false
  /\ fst (add_schedule two_due 0 "job" "not a rule" tt) = two_due
  /\ count (fst (add_schedule two_due 0 "job" "not a rule" tt))
     = count two_due
  /\ map next_fire (tasks (fst (add_schedule two_due 0 "job" "not a rule"
                                             tt)))
     = map next_fire (tasks two_due).
Proof.
  apply (add_schedule_invalid_rule two_due 0 "job" "not a rule" tt).
  reflexivity.
Defined.

(** C9 on a run: the first five operations of
    [register_remove_register]. *)
Lemma names_unique_when_registered_fresh_witness :
  NoDup (names (run init (firstn 5 register_remove_register))).
Proof.
  apply (names_unique_when_registered_fresh register_remove_register).
  vm_compute. repeat split; try tauto.
  - repeat constructor; simpl; intuition discriminate.
  - intros x [<-|[<-|[]]] [E|[]]; discriminate.
  - intros [E|[]]; discriminate.
Defined.

(** C10 on a run: a valid rule without an occurrence. *)
Lemma add_schedule_valid_rule_returns_true_witness :
  snd (add_schedule two_due 0 "job" "never" tt) = true
  /\ fst (add_schedule two_due 0 "job" "never" tt) = two_due
  /\ count (fst (add_schedule two_due 0 "job" "never" tt)) = count two_due.
Proof.
  destruct (add_schedule_valid_rule_returns_true two_due 0 "job" "never" tt
              eq_refl) as [H1 H2].
  split; [exact H1|]. apply H2. reflexivity.
Defined.

End Scenarios.


(** * Further operations of the engine *)

Section Further_model.

Context {ext : Collaborators} {sorter : Sorter}.

(** [get_time_until_expiry_for_tasks(status)]: [status.clear()], then one
    [emplace_back(name, time_until_expiry(now))] per task, in queue order.
    The vector passed by reference is an input and the result. *)
Definition get_time_until_expiry_for_tasks (c : Cron) (clock_now : Z)
           (status : list (string * Z)) : list (string * Z) :=
  let now := clock_now in
  let status := @nil (string * Z) in
  fold_left (fun st t => st ++ [(name t, time_until_expiry t now)])
            (tasks c) status.

(** The entries of a map registered one at a time with the single
    [add_schedule]; the [k]-th call reads [clock k]. *)
Fixpoint add_each (c : Cron) (clock : nat -> Z) (k : nat)
         (entries : list (string * string)) (w : TaskFunction) : Cron :=
  match entries with
  | [] => c
  | (n, s) :: rest =>
      add_each (fst (add_schedule c (clock k) n s w)) clock (S k) rest w
  end.

(** What the loop body of [tick] leaves of a task when nothing is
    erased: a due task is recomputed from one second after [now]. *)
Definition after_visit (now : Z) (t : Task) : Task :=
  if is_expired t now then fst (calculate_next t (now + one_second)) else t.

(** A sequence of operations without a tick that is a clock correction. *)
Fixpoint calm (c : Cron) (ops : list operation) : Prop :=
  match ops with
  | [] => True
  | o :: rest => ordinary c o /\ calm (apply c o) rest
  end.

End Further_model.

Section Further_facts.

Context {ext : Collaborators} {sorter : Sorter}.

Lemma exec_loop_step (now : Z) (i : nat) (p : pass) :
  (i < size (p_queue p))%nat ->
  exec_loop now i p = exec_loop now (S i) (visit now i p).
Proof.
  intros Hi. funelim (exec_loop now i p); try reflexivity; contradiction.
Qed.

Lemma exec_loop_done (now : Z) (i : nat) (p : pass) :
  ~ (i < size (p_queue p))%nat -> exec_loop now i p = p.
Proof.
  intros Hi. funelim (exec_loop now i p); try reflexivity; contradiction.
Qed.

Lemma size_set_at (i : nat) (t : Task) (c : TaskQueue) :
  size (set_at i t c) = size c.
Proof.
  revert i. induction c as [|x c IH]; intros [|i]; simpl; auto.
Qed.

Lemma size_erase_first (p : Task -> bool) (c : TaskQueue) :
  (size (erase_first p c) <= size c <= S (size (erase_first p c)))%nat.
Proof.
  induction c as [|x c IH]; simpl; [lia|].
  destruct (p x); simpl in *; lia.
Qed.

Lemma size_sort (c : TaskQueue) : size (sort c) = size c.
Proof. symmetry. apply Permutation_length, sort_permutation. Qed.

Lemma set_at_middle (t t' : Task) (done rest : TaskQueue) :
  set_at (List.length done) t' (done ++ t :: rest) = done ++ t' :: rest.
Proof. induction done as [|x done IH]; simpl; auto. now rewrite IH. Qed.

Lemma at_middle (t : Task) (done rest : TaskQueue) :
  at_ (done ++ t :: rest) (List.length done) = Some t.
Proof.
  unfold at_. rewrite nth_error_app2 by lia. now rewrite Nat.sub_diag.
Qed.

Lemma erase_first_split (p : Task -> bool) (c : TaskQueue) :
  (exists t, In t c /\ p t = true) ->
  exists l1 t l2,
    c = l1 ++ t :: l2 /\ p t = true
    /\ (forall y, In y l1 -> p y = false)
    /\ erase_first p c = l1 ++ l2.
Proof.
  induction c as [|x c IH]; intros (t & Ht & Hp); [destruct Ht|].
  simpl. destruct (p x) eqn:Hx.
  - exists [], x, c. repeat split; auto. intros y [].
  - destruct IH as (l1 & t' & l2 & -> & Hp' & Hl1 & E).
    { destruct Ht as [->|Ht]; [congruence|eauto]. }
    exists (x :: l1), t', l2. rewrite E. repeat split; auto.
    intros y [<-|Hy]; auto.
Qed.

Lemma erase_first_none (p : Task -> bool) (c : TaskQueue) :
  (forall t, In t c -> p t = false) -> erase_first p c = c.
Proof.
  induction c as [|x c IH]; simpl; auto.
  intros H. rewrite (H x) by auto. f_equal. apply IH. auto.
Qed.

End Further_facts.

(** ** Registration and removal *)

Section Further_registration.

Context {ext : Collaborators} {sorter : Sorter}.

Lemma with_tasks_same (c : Cron) : with_tasks c (tasks c) = c.
Proof. now destruct c. Qed.

(** X1.  [remove_schedule] with a name that no task bears leaves the
    engine exactly as it was. *)
Theorem remove_schedule_absent (c : Cron) (n : string) :
  ~ In n (names c) -> remove_schedule c n = c.
Proof.
  intros H. unfold remove_schedule, remove_name.
  rewrite erase_first_none; [apply with_tasks_same|].
  intros t Ht. apply String.eqb_neq. intros ->. apply H.
  now apply in_map.
Qed.

(** X2.  [remove_schedule] with a name in the queue erases the first task
    bearing it and nothing else: the tasks before and after it keep their
    order, later tasks with the same name stay, and the count drops by
    one. *)
Theorem remove_schedule_first_match (c : Cron) (n : string) :
  In n (names c) ->
  exists l1 t l2,
    tasks c = l1 ++ t :: l2
    /\ name t = n
    /\ ~ In n (map name l1)
    /\ tasks (remove_schedule c n) = l1 ++ l2
    /\ S (count (remove_schedule c n)) = count c.
Proof.
  intros (t0 & E0 & H0)%in_map_iff.
  destruct (erase_first_split (fun t => (n =? name t)%string) (tasks c))
    as (l1 & t & l2 & E & Hp & Hl1 & Her).
  { exists t0. split; auto. now apply String.eqb_eq. }
  exists l1, t, l2. apply String.eqb_eq in Hp.
  repeat split; auto.
  - intros (y & Ey & Hy)%in_map_iff.
    specialize (Hl1 y Hy). apply String.eqb_neq in Hl1. congruence.
  - unfold count, remove_schedule, remove_name. simpl.
    rewrite Her, E. unfold size. rewrite !length_app. simpl. lia.
Qed.

(** X3.  A successful [add_schedule] (valid rule with an occurrence after
    the clock reading) inserts exactly one task, named as asked and due at
    that occurrence, keeps every task that was there, leaves the queue
    in ascending order of next fire time, and touches neither
    [first_tick] nor [last_tick]. *)
Theorem add_schedule_inserts (c : Cron) (clock_now : Z) (n s : string)
        (w : TaskFunction) (nf : Z) :
  is_valid (create s) = true ->
  next_occurrence (create s) clock_now = Some nf ->
  Permutation (tasks (fst (add_schedule c clock_now n s w)))
              (tasks c ++ [mkTask (next_tid c) n (create s) w nf true])
  /\ StronglySorted by_next_fire
                    (tasks (fst (add_schedule c clock_now n s w)))
  /\ count (fst (add_schedule c clock_now n s w)) = S (count c)
  /\ first_tick (fst (add_schedule c clock_now n s w)) = first_tick c
  /\ last_tick (fst (add_schedule c clock_now n s w)) = last_tick c.
Proof.
  intros Hv Hn.
  destruct (add_schedule_cases c clock_now n s w)
    as [[H0 _]|[(_ & H0 & _)|(_ & nf' & H0 & ->)]]; try congruence.
  assert (nf' = nf) as -> by congruence. simpl.
  repeat split.
  - symmetry. apply sort_permutation.
  - apply sort_sorted.
  - change (size (sort (tasks c
              ++ [mkTask (next_tid c) n (create s) w nf true]))
            = S (size (tasks c))).
    rewrite size_sort. unfold size. rewrite length_app. simpl. lia.
Qed.

(** X4.  Registering a schedule under a name not in the queue and then
    removing that name gives back the tasks that were there before, up to
    the order of the queue, whether or not the registration inserted a
    task. *)
Theorem add_then_remove_schedule (c : Cron) (clock_now : Z) (n s : string)
        (w : TaskFunction) :
  ~ In n (names c) ->
  Permutation
    (tasks (remove_schedule (fst (add_schedule c clock_now n s w)) n))
    (tasks c).
Proof.
  intros Hfresh.
  destruct (add_schedule_cases c clock_now n s w)
    as [[_ ->]|[(_ & _ & ->)|(_ & nf & _ & ->)]];
    try (simpl fst; now rewrite remove_schedule_absent).
  simpl fst. set (new := mkTask (next_tid c) n (create s) w nf true).
  unfold remove_schedule, remove_name. simpl.
  destruct (erase_first_split (fun t => (n =? name t)%string)
                              (sort (tasks c ++ [new])))
    as (l1 & t & l2 & E & Hp & _ & ->).
  { exists new. split; [|apply String.eqb_refl].
    apply sort_In, in_or_app. right. now left. }
  apply String.eqb_eq in Hp.
  assert (Ht : In t (tasks c ++ [new])).
  { apply In_sort. rewrite E. apply in_or_app. right. now left. }
  assert (t = new) as ->.
  { apply in_app_or in Ht as [Ht|[<-|[]]]; auto.
    exfalso. apply Hfresh. rewrite Hp. now apply in_map. }
  apply (Permutation_cons_inv (a := new)).
  rewrite Permutation_middle, <- E, <- sort_permutation.
  symmetry. apply Permutation_cons_append.
Qed.

(** The tasks that [add_each] leaves are those of the queue and the
    runnable tasks of the entries. *)
Lemma add_each_runnable (clock : nat -> Z)
      (entries : list (string * string)) (w : TaskFunction) :
  first_invalid entries = None ->
  forall c k,
    Permutation (tasks (add_each c clock k entries w))
                (tasks c ++ runnable clock k (next_tid c) entries w)
    /\ next_tid (add_each c clock k entries w)
       = (next_tid c
          + List.length (runnable clock k (next_tid c) entries w))%nat
    /\ first_tick (add_each c clock k entries w) = first_tick c
    /\ last_tick (add_each c clock k entries w) = last_tick c.
Proof.
  unfold first_invalid.
  induction entries as [|[n s] rest IH]; simpl; intros Hv c k.
  - rewrite app_nil_r. repeat split; auto.
  - destruct (is_valid (create s)) eqn:Hs; simpl in Hv; [|discriminate].
    specialize (IH Hv).
    destruct (add_schedule_cases c (clock k) n s w)
      as [[H0 _]|[(_ & Hn & ->)|(_ & nf & Hn & ->)]]; try congruence;
      rewrite Hn; simpl fst.
    + apply IH.
    + destruct (IH (mkCron (sort (tasks c
                  ++ [mkTask (next_tid c) n (create s) w nf true]))
                  (first_tick c) (last_tick c) (S (next_tid c))) (S k))
        as (P & E1 & E2 & E3).
      simpl in *. repeat split; auto; [|lia].
      rewrite P, <- sort_permutation, <- app_assoc. reflexivity.
Qed.

(** X5.  When every rule of the map is valid, the bulk [add_schedule]
    leaves the same tasks, up to the order of the queue, as registering
    the entries one at a time with the single [add_schedule] under the
    same clock readings. *)
Theorem bulk_add_is_add_each (c : Cron) (clock : nat -> Z)
        (entries : list (string * string)) (w : TaskFunction) :
  first_invalid entries = None ->
  Permutation (tasks (fst (add_schedules c clock entries w)))
              (tasks (add_each c clock 0 entries w))
  /\ count (fst (add_schedules c clock entries w))
     = count (add_each c clock 0 entries w)
  /\ first_tick (fst (add_schedules c clock entries w))
     = first_tick (add_each c clock 0 entries w)
  /\ last_tick (fst (add_schedules c clock entries w))
     = last_tick (add_each c clock 0 entries w).
Proof.
  intros Hv.
  destruct (add_each_runnable clock entries w Hv c 0%nat)
    as (P & _ & E2 & E3).
  assert (Q : Permutation (tasks (fst (add_schedules c clock entries w)))
                (tasks c ++ runnable clock 0 (next_tid c) entries w)).
  { rewrite add_schedules_cases, Hv. simpl.
    destruct (runnable clock 0 (next_tid c) entries w) as [|t l] eqn:E;
      simpl.
    - now rewrite app_nil_r.
    - symmetry. apply sort_permutation. }
  assert (R : Permutation (tasks (fst (add_schedules c clock entries w)))
                (tasks (add_each c clock 0 entries w)))
    by now rewrite Q, P.
  repeat split; auto.
  - unfold count, size. now apply Permutation_length.
  - rewrite E2, add_schedules_cases, Hv. simpl. now destruct (empty _).
  - rewrite E3, add_schedules_cases, Hv. simpl. now destruct (empty _).
Qed.

End Further_registration.

(** ** More on tick, recalculation and the queries *)

Section Further_tick.

Context {ext : Collaborators} {sorter : Sorter}.

(** The loop erases at most as many tasks as it executes and adds none. *)
Definition balanced (n0 : nat) (p : pass) : Prop :=
  (size (p_queue p) <= n0 <= size (p_queue p) + p_res p)%nat.

Lemma visit_balanced (now : Z) (n0 i : nat) (p : pass) (t : Task) :
  at_ (p_queue p) i = Some t ->
  balanced n0 p -> balanced n0 (visit now i p).
Proof.
  unfold balanced. intros Hat H.
  destruct (visit_cases now i p t Hat)
    as [[_ ->]|(_ & t' & ok & _ & ->)]; auto.
  simpl. destruct ok.
  - rewrite size_set_at. lia.
  - pose proof (size_erase_first
                  (fun to_compare => (name t' =? name to_compare)%string)
                  (set_at i t' (p_queue p))) as He.
    unfold remove_task. rewrite size_set_at in He. lia.
Qed.

Lemma execution_pass_balanced (now : Z) (q : TaskQueue) :
  balanced (size q) (execution_pass now q).
Proof.
  assert (H0 : balanced (size q) (mkPass q 0 []))
    by (unfold balanced; simpl; lia).
  unfold execution_pass. destruct (negb (empty q)); auto.
  assert (H : balanced (size q) (exec_loop now 0 (mkPass q 0 []))).
  { revert H0. apply exec_loop_invariant.
    intros j p t. apply visit_balanced. }
  destruct (0 <? _)%nat; auto.
  unfold balanced in *. simpl. rewrite size_sort. exact H.
Qed.

Lemma size_drift_correction (c : Cron) (now : Z) :
  size (drift_correction c now) = size (tasks c).
Proof.
  destruct (drift_correction_cases c now) as [->| ->]; auto.
  apply length_map.
Qed.

(** X6.  A tick never adds a task and never renames one, it erases at most
    as many tasks as it executed, and the count it returns is the number
    of work items it invoked. *)
Theorem tick_accounting (c : Cron) (now : Z) :
  (count (engine (tick c now)) <= count c)%nat
  /\ (count c <= count (engine (tick c now)) + fired (tick c now))%nat
  /\ fired (tick c now) = List.length (calls (tick c now))
  /\ incl (names (engine (tick c now))) (names c).
Proof.
  pose proof (execution_pass_balanced (debounce c now)
                (drift_correction c (debounce c now))) as [H1 H2].
  rewrite size_drift_correction in H1, H2.
  repeat split; auto.
  - apply tick_count.
  - apply (tick_incl _ name calculate_next_name).
Qed.

(** No task runs twice in one pass. *)
Definition once (now : Z) (p : pass) : Prop :=
  rescheduled now p /\ NoDup (map ev_tid (p_trace p)).

Lemma visit_once (now : Z) (i : nat) (p : pass) (t : Task) :
  later_occurrences ->
  at_ (p_queue p) i = Some t ->
  once now p -> once now (visit now i p).
Proof.
  intros Hlater Hat [Hre Hnd].
  split; [now apply (visit_rescheduled now i p t)|].
  destruct (visit_cases now i p t Hat)
    as [[_ ->]|(Hexp & t' & ok & _ & ->)]; auto.
  simpl. rewrite map_app. simpl.
  apply NoDup_app; auto.
  - repeat constructor. intros [].
  - intros k (e & Ek & He)%in_map_iff [<-|[]].
    destruct Hre as (_ & _ & Hre).
    unfold is_expired in Hexp. apply andb_true_iff in Hexp as [Hv Hdue].
    apply Z.leb_le in Hdue.
    specialize (Hre t e (at_In _ _ _ Hat) He (eq_sym Ek) Hv).
    pose proof one_second_pos. lia.
Qed.

(** X7.  With unique task identities and an evaluator that returns later
    occurrences, one call of [tick] executes no task more than once. *)
Theorem tick_executes_each_task_once (c : Cron) (now : Z) :
  later_occurrences ->
  NoDup (tids c) ->
  NoDup (map ev_tid (calls (tick c now))).
Proof.
  intros Hlater Hnd. unfold tick. simpl.
  set (now' := debounce c now). set (q := drift_correction c now').
  assert (Hq : NoDup (map tid q))
    by (unfold q; now rewrite drift_correction_tid).
  assert (H0 : once now' (mkPass q 0 [])).
  { split; [|constructor]. repeat split; simpl; auto; tauto. }
  unfold execution_pass. destruct (negb (empty q)); [|constructor].
  assert (H : once now' (exec_loop now' 0 (mkPass q 0 []))).
  { revert H0. apply exec_loop_invariant.
    intros j p t. now apply visit_once. }
  destruct H as [_ H]. destruct (0 <? _)%nat; auto.
Qed.

(** X8.  A tick that is not a clock correction and finds no task due at
    the accepted time returns 0, invokes nothing and leaves the queue as
    it is; only the tick bookkeeping changes.  An empty queue is a
    special case. *)
Theorem tick_nothing_due (c : Cron) (now : Z) :
  ordinary c (Tick now) ->
  (forall t, In t (tasks c) -> is_expired t (debounce c now) = false) ->
  tick c now
  = mkOutcome (mkCron (tasks c) false (debounce c now) (next_tid c)) 0 [].
Proof.
  intros Ho Hidle.
  assert (E : drift_correction c (debounce c now) = tasks c).
  { destruct Ho as [Ho|Ho].
    - unfold drift_correction. now rewrite Ho.
    - now apply drift_correction_small. }
  unfold tick. rewrite E, execution_pass_idle; auto.
Qed.

(** Without an erasure the loop walks the queue once from left to
    right. *)
Lemma exec_loop_without_retirement (now : Z) (rest : TaskQueue) :
  (forall t, In t rest -> is_expired t now = true ->
             next_occurrence (schedule t) (now + one_second) <> None) ->
  forall (done : TaskQueue) (res : nat) (tr : list event),
    exec_loop now (List.length done) (mkPass (done ++ rest) res tr)
    = mkPass (done ++ map (after_visit now) rest)
             (res + List.length (filter (fun t => is_expired t now) rest))
             (tr ++ map (fun t => execute t now)
                        (filter (fun t => is_expired t now) rest)).
Proof.
  induction rest as [|t rest IH]; intros Hnext done res tr.
  - rewrite exec_loop_done.
    + simpl. now rewrite Nat.add_0_r, !app_nil_r.
    + simpl. unfold size. rewrite app_nil_r. lia.
  - rewrite exec_loop_step
      by (simpl; unfold size; rewrite length_app; simpl; lia).
    assert (Hrest : forall u, In u rest -> is_expired u now = true ->
              next_occurrence (schedule u) (now + one_second) <> None)
      by (intros u Hu; apply Hnext; now right).
    unfold visit. simpl p_queue. rewrite at_middle.
    unfold after_visit at 1. simpl map. simpl filter.
    destruct (is_expired t now) eqn:Hexp.
    + specialize (Hnext t (or_introl eq_refl) Hexp).
      unfold calculate_next.
      destruct (next_occurrence (schedule t) (now + one_second))
        as [nf|]; [|congruence].
      simpl. rewrite set_at_middle.
      set (t' := mkTask (tid t) (name t) (schedule t) (work t) nf true).
      replace (done ++ t' :: rest) with ((done ++ [t']) ++ rest)
        by now rewrite <- app_assoc.
      replace (S (List.length done)) with (List.length (done ++ [t']))
        by (rewrite length_app; simpl; lia).
      rewrite IH by auto. rewrite <- !app_assoc. simpl.
      f_equal. lia.
    + replace (done ++ t :: rest) with ((done ++ [t]) ++ rest)
        by now rewrite <- app_assoc.
      replace (S (List.length done)) with (List.length (done ++ [t]))
        by (rewrite length_app; simpl; lia).
      rewrite IH by auto. now rewrite <- !app_assoc.
Qed.

(** X9.  In a tick that is not a clock correction, if every task due at
    the accepted time has a further occurrence (so that none is retired),
    then every due task is executed exactly once, in queue order, the
    returned count is the number of due tasks, and the queue afterwards
    holds every task, the due ones rescheduled. *)
Theorem tick_without_retirement (c : Cron) (now : Z) :
  ordinary c (Tick now) ->
  (forall t, In t (tasks c) -> is_expired t (debounce c now) = true ->
             next_occurrence (schedule t) (debounce c now + one_second)
             <> None) ->
  calls (tick c now)
  = map (fun t => execute t (debounce c now))
        (filter (fun t => is_expired t (debounce c now)) (tasks c))
  /\ fired (tick c now)
     = List.length (filter (fun t => is_expired t (debounce c now))
                           (tasks c))
  /\ Permutation (tasks (engine (tick c now)))
                 (map (after_visit (debounce c now)) (tasks c)).
Proof.
  intros Ho Hnext.
  assert (E : drift_correction c (debounce c now) = tasks c).
  { destruct Ho as [Ho|Ho].
    - unfold drift_correction. now rewrite Ho.
    - now apply drift_correction_small. }
  unfold tick. rewrite E. simpl.
  unfold execution_pass. destruct (tasks c) as [|t0 q] eqn:Eq.
  - simpl. repeat split; auto.
  - simpl negb. cbv iota.
    pose proof (exec_loop_without_retirement (debounce c now) (t0 :: q)
                  Hnext [] 0%nat []) as H.
    simpl List.length in H. simpl app in H. rewrite H.
    simpl p_res. destruct (0 <? _)%nat; simpl; repeat split; auto.
    symmetry. apply sort_permutation.
Qed.

(** X10.  From the empty engine, every sequence of operations in which no
    tick is a clock correction of three hours or more leaves the queue in
    ascending order of next fire time. *)
Theorem calm_run_sorted (ops : list operation) :
  calm init ops -> StronglySorted by_next_fire (tasks (run init ops)).
Proof.
  assert (H : forall c, StronglySorted by_next_fire (tasks c) ->
                        calm c ops ->
                        StronglySorted by_next_fire (tasks (run c ops))).
  { induction ops as [|o ops IH]; intros c Hs Hc; simpl; auto.
    destruct Hc as [Ho Hc]. apply IH; auto. now apply apply_sorted. }
  apply H. constructor.
Qed.

(** X11.  On a queue in ascending order of next fire time,
    [time_until_next] is the smallest [time_until_expiry] of all tasks. *)
Theorem time_until_next_is_minimum (c : Cron) (clock_now : Z) (t : Task) :
  StronglySorted by_next_fire (tasks c) ->
  In t (tasks c) ->
  time_until_next c clock_now <= time_until_expiry t clock_now
  /\ exists t0, In t0 (tasks c)
                /\ time_until_next c clock_now
                   = time_until_expiry t0 clock_now.
Proof.
  intros Hs Ht. unfold time_until_next, time_until_expiry.
  destruct (tasks c) as [|t0 q]; [destruct Ht|]. simpl.
  split; [|exists t0; split; auto; now left].
  inversion Hs as [|? ? _ Hall]; subst.
  destruct Ht as [->|Ht]; [lia|].
  rewrite Forall_forall in Hall. specialize (Hall t Ht).
  unfold by_next_fire in Hall. lia.
Qed.

Lemma status_fold (now : Z) (q : TaskQueue) (st : list (string * Z)) :
  fold_left (fun st t => st ++ [(name t, time_until_expiry t now)]) q st
  = st ++ map (fun t => (name t, time_until_expiry t now)) q.
Proof.
  revert st. induction q as [|t q IH]; intros st; simpl.
  - now rewrite app_nil_r.
  - rewrite IH, <- app_assoc. reflexivity.
Qed.

(** X12.  [get_time_until_expiry_for_tasks] discards whatever the vector
    held and fills it with one entry per task, in queue order, holding the
    name and the time until expiry; on a non-empty queue the duration of
    the first entry is what [time_until_next] returns. *)
Theorem status_lists_every_task (c : Cron) (clock_now : Z)
        (status : list (string * Z)) :
  get_time_until_expiry_for_tasks c clock_now status
  = map (fun t => (name t, next_fire t - clock_now)) (tasks c)
  /\ List.length (get_time_until_expiry_for_tasks c clock_now status)
     = count c
  /\ hd_error (map snd (get_time_until_expiry_for_tasks c clock_now status))
     = if empty (tasks c) then None
       else Some (time_until_next c clock_now).
Proof.
  unfold get_time_until_expiry_for_tasks. rewrite status_fold. simpl.
  repeat split.
  - apply length_map.
  - unfold time_until_next. now destruct (tasks c).
Qed.

Lemma recalculate_from_later (clock : nat -> Z) (c : TaskQueue) (t : Task) :
  later_occurrences ->
  forall k, In t (recalculate_from clock k c) -> valid t = true ->
            exists j, (k <= j < k + size c)%nat
                      /\ clock j + one_second < next_fire t.
Proof.
  intros Hlater. induction c as [|x c IH]; intros k; simpl; [tauto|].
  intros [<-|Hin] Hv.
  - exists k. split; [lia|].
    unfold calculate_next in *.
    destruct (next_occurrence (schedule x) (clock k + one_second)) eqn:E;
      simpl in *; [now apply Hlater in E|discriminate].
  - destruct (IH (S k) Hin Hv) as (j & Hj & H). exists j. split; auto. lia.
Qed.

(** X13.  With any evaluator, [recalculate_schedule] keeps every task,
    also one whose rule has no further occurrence, and leaves the queue in
    ascending order of next fire time; with an evaluator that returns
    later occurrences every task
    that still has a next fire time is due later than one second after
    one of the clock readings taken. *)
Theorem recalculate_schedule_keeps_tasks (c : Cron) (clock : nat -> Z) :
  count (recalculate_schedule c clock) = count c
  /\ Permutation (names (recalculate_schedule c clock)) (names c)
  /\ StronglySorted by_next_fire (tasks (recalculate_schedule c clock))
  /\ (later_occurrences ->
      forall t, In t (tasks (recalculate_schedule c clock)) ->
                valid t = true ->
                exists j, (j < count c)%nat
                          /\ clock j + one_second < next_fire t).
Proof.
  unfold recalculate_schedule, count, names. simpl.
  assert (L : size (recalculate_from clock 0 (tasks c)) = size (tasks c)).
  { unfold size. rewrite <- (length_map name), <- (length_map name (tasks c)).
    f_equal. apply (recalculate_from_map _ name calculate_next_name). }
  repeat split.
  - now rewrite size_sort.
  - rewrite <- Permutation_tasks_map.
    now rewrite (recalculate_from_map _ name calculate_next_name).
  - apply sort_sorted.
  - intros Hlater t Ht%In_sort Hv.
    destruct (recalculate_from_later clock (tasks c) t Hlater 0%nat Ht Hv)
      as (j & Hj & H).
    exists j. split; auto. simpl in Hj. lia.
Qed.

End Further_tick.

(** ** Retirement and repeated ticks *)

Section Further_retirement.

Context {ext : Collaborators} {sorter : Sorter}.

Lemma erase_first_name_gone (n : string) (y : Task) (c : TaskQueue) :
  NoDup (map name c) ->
  In y (erase_first (fun z => (n =? name z)%string) c) ->
  name y <> n.
Proof.
  induction c as [|x c IH]; simpl; [tauto|].
  intros Hnd Hy. inversion Hnd as [|? ? Hx Hc]; subst.
  destruct (String.eqb_spec n (name x)) as [->|Hne].
  - intros E. apply Hx. rewrite <- E. now apply in_map.
  - destruct Hy as [<-|Hy]; auto.
Qed.

Lemma calculate_next_fst_schedule (t t' : Task) (ok : bool) (from : Z) :
  calculate_next t from = (t', ok) -> schedule t' = schedule t.
Proof.
  unfold calculate_next. destruct next_occurrence; now intros [= <- _].
Qed.

(** Every task in the queue carries the rule it started the pass with,
    and an executed task that stays in the queue was given the occurrence
    its rule has after [now + 1s]. *)
Definition retired (now : Z) (q0 : TaskQueue) (p : pass) : Prop :=
  NoDup (map tid (p_queue p))
  /\ NoDup (map name (p_queue p))
  /\ (forall y, In y (p_queue p) ->
                exists x, In x q0 /\ tid x = tid y
                          /\ schedule x = schedule y)
  /\ (forall y e, In y (p_queue p) -> In e (p_trace p) ->
                  tid y = ev_tid e ->
                  valid y = true
                  /\ next_occurrence (schedule y) (now + one_second)
                     = Some (next_fire y)).

Lemma visit_retired (now : Z) (q0 : TaskQueue) (i : nat) (p : pass)
      (t : Task) :
  at_ (p_queue p) i = Some t ->
  retired now q0 p -> retired now q0 (visit now i p).
Proof.
  intros Hat (Hid & Hnm & Hsch & Hv).
  destruct (visit_cases now i p t Hat)
    as [[_ ->]|(Hexp & t' & ok & Hc & ->)];
    [exact (conj Hid (conj Hnm (conj Hsch Hv)))|].
  pose proof (calculate_next_fst_tid _ _ _ _ Hc) as Htid.
  pose proof (calculate_next_fst_name _ _ _ _ Hc) as Hname.
  pose proof (calculate_next_fst_schedule _ _ _ _ Hc) as Hrule.
  assert (Hid1 : NoDup (map tid (set_at i t' (p_queue p))))
    by (erewrite map_set_at; eauto).
  assert (Hnm1 : NoDup (map name (set_at i t' (p_queue p))))
    by (erewrite map_set_at; eauto).
  assert (Hin' : In t' (set_at i t' (p_queue p)))
    by (eapply set_at_In; eauto).
  assert (Hok : ok = true ->
                valid t' = true
                /\ next_occurrence (schedule t') (now + one_second)
                   = Some (next_fire t')).
  { intros ->. apply calculate_next_ok in Hc. now rewrite Hrule. }
  split; [|split; [|split]]; simpl.
  - eapply NoDup_visited; eauto.
  - eapply NoDup_visited; eauto.
  - intros y [->|Hy]%In_visited; auto.
    destruct (Hsch t (at_In _ _ _ Hat)) as (x & Hx & E1 & E2).
    exists x. repeat split; auto; congruence.
  - intros y e Hy He Hye. destruct ok.
    + destruct (In_set_at _ _ _ _ Hy) as [->|Hy']; auto.
      apply in_app_or in He as [He|[<-|[]]]; [eauto|].
      simpl in Hye.
      assert (y = t') as ->
          by (eapply (NoDup_map_eq tid); eauto; congruence).
      auto.
    + pose proof (erase_first_name_gone _ _ _ Hnm1 Hy) as Hgone.
      apply In_erase_first in Hy.
      destruct (In_set_at _ _ _ _ Hy) as [->|Hy']; [congruence|].
      apply in_app_or in He as [He|[<-|[]]]; [eauto|].
      simpl in Hye.
      assert (y = t')
        by (eapply (NoDup_map_eq tid); eauto; congruence).
      congruence.
Qed.

Lemma drift_correction_schedule (c : Cron) (now : Z) (y : Task) :
  In y (drift_correction c now) ->
  exists x, In x (tasks c) /\ tid x = tid y /\ schedule x = schedule y.
Proof.
  intros Hy.
  destruct (drift_correction_cases c now) as [E|E]; rewrite E in Hy.
  - now exists y.
  - apply in_map_iff in Hy as (x & <- & Hx). exists x.
    destruct (calculate_next x now) as [x' ok] eqn:Hc. simpl.
    repeat split; auto; symmetry.
    + eapply calculate_next_fst_tid; eauto.
    + eapply calculate_next_fst_schedule; eauto.
Qed.

Lemma execution_pass_retired (now : Z) (q : TaskQueue) :
  NoDup (map tid q) -> NoDup (map name q) ->
  retired now q (execution_pass now q).
Proof.
  intros Hid Hnm.
  assert (H0 : retired now q (mkPass q 0 [])).
  { split; [|split; [|split]]; simpl; auto; [|tauto].
    intros y Hy. now exists y. }
  unfold execution_pass. destruct (negb (empty q)); auto.
  assert (H : retired now q (exec_loop now 0 (mkPass q 0 []))).
  { revert H0. apply exec_loop_invariant.
    intros j p t. apply visit_retired. }
  destruct H as (H1 & H2 & H3 & H4).
  destruct (0 <? _)%nat; [|exact (conj H1 (conj H2 (conj H3 H4)))].
  split; [|split; [|split]]; simpl.
  - now apply NoDup_map_sort.
  - now apply NoDup_map_sort.
  - intros y Hy%In_sort. now apply H3.
  - intros y e Hy%In_sort. now apply H4.
Qed.

(** X14.  With unique names and identities in the queue: every task that a
    tick executed and that is still in the queue has a next fire time;
    and a task that the tick executed and whose rule has no occurrence
    after one second past the accepted time is no longer in the queue. *)
Theorem tick_retires_exhausted_tasks (c : Cron) (now : Z) :
  NoDup (names c) ->
  NoDup (tids c) ->
  (forall y e,
     In y (tasks (engine (tick c now))) ->
     In e (calls (tick c now)) ->
     tid y = ev_tid e -> valid y = true)
  /\ (forall x e,
        In x (tasks c) ->
        In e (calls (tick c now)) ->
        tid x = ev_tid e ->
        next_occurrence (schedule x) (debounce c now + one_second) = None ->
        ~ In (tid x) (tids (engine (tick c now)))).
Proof.
  intros Hnm Hid.
  destruct (execution_pass_retired (debounce c now)
              (drift_correction c (debounce c now)))
    as (_ & _ & Hsch & Hv).
  { now rewrite drift_correction_tid. }
  { now rewrite drift_correction_name. }
  split.
  - intros y e Hy He E. now destruct (Hv y e Hy He E).
  - intros x e Hx He E Hnone (y & Ey & Hy)%in_map_iff.
    destruct (Hv y e Hy He) as [_ Hsome]; [congruence|].
    destruct (Hsch y Hy) as (x1 & Hx1%drift_correction_schedule & E1 & E2).
    destruct Hx1 as (x2 & Hx2 & E3 & E4).
    assert (x2 = x)
      by (eapply (NoDup_map_eq tid); eauto; congruence).
    subst x2. congruence.
Qed.

Lemma after_visit_not_expired (now : Z) (t : Task) :
  later_occurrences -> is_expired (after_visit now t) now = false.
Proof.
  intros Hlater. unfold after_visit.
  destruct (is_expired t now) eqn:E; auto.
  destruct (calculate_next t (now + one_second)) as [t' ok] eqn:Hc.
  simpl. eapply rescheduled_not_expired; eauto.
Qed.

(** X15.  After a tick that is not a clock correction and retired no
    task, a further tick less than one second away from the accepted time
    returns 0, invokes nothing and leaves the queue as it is. *)
Theorem tick_then_debounced_tick_idle (c : Cron) (now now2 : Z) :
  later_occurrences ->
  ordinary c (Tick now) ->
  (forall t, In t (tasks c) -> is_expired t (debounce c now) = true ->
             next_occurrence (schedule t) (debounce c now + one_second)
             <> None) ->
  Z.abs (now2 - debounce c now) < one_second ->
  tick (engine (tick c now)) now2
  = mkOutcome (mkCron (tasks (engine (tick c now))) false (debounce c now)
                      (next_tid c)) 0 [].
Proof.
  intros Hlater Ho Hnext Hnear.
  destruct (tick_without_retirement c now Ho Hnext) as (_ & _ & P).
  set (c1 := engine (tick c now)) in *.
  assert (Hdeb : debounce c1 now2 = debounce c now).
  { rewrite debounce_accepted by reflexivity.
    now apply accepted_near. }
  assert (Ho1 : ordinary c1 (Tick now2)).
  { right. rewrite Hdeb. change (last_tick c1) with (debounce c now).
    rewrite Z.sub_diag. reflexivity. }
  rewrite (tick_nothing_due c1 now2 Ho1); [now rewrite Hdeb|].
  intros t Ht. rewrite Hdeb.
  apply (Permutation_in _ P) in Ht.
  apply in_map_iff in Ht as (u & <- & _).
  now apply after_visit_not_expired.
Qed.

End Further_retirement.

(** * Further scenarios *)

Module Further_scenarios.

Import Demo.
Import Scenarios.
Local Open Scope string_scope.

(** Two tasks registered under one name. *)
Definition twice_job : Cron :=
  run init [Add 0 "job" "* * * * * ?" tt; Add 0 "job" "0 * * * * ?" tt].

(** The second task of [two_due]. *)
Definition second_task : Task :=
  mkTask 1 "second" (At [10000000000; 70000000000]) tt (seconds 10) true.

(** Three tasks due at 5s, 10s and 11s; the first has no later
    occurrence, the third runs every second. *)
Definition three_due : Cron :=
  run init [Add 0 "first" "once at 5s" tt;
            Add 0 "second" "at 10s and 70s" tt;
            Add (milliseconds 10500) "third" "* * * * * ?" tt].

(** The first task of [three_due]. *)
Definition first_task : Task :=
  mkTask 0 "first" (At [5000000000]) tt (seconds 5) true.

(** The third task of [three_due] after it ran at 11s. *)
Definition third_after_11s : Task :=
  mkTask 2 "third" (Every 1000000000) tt (seconds 13) true.

(** A map of two valid rules, one of them without an occurrence. *)
Definition valid_batch : list (string * string) :=
  [("b", "0 * * * * ?"); ("c", "never")].

(** Operations with a first tick and a tick one second after it. *)
Definition calm_operations : list operation :=
  [Add 0 "a" "* * * * * ?" tt;
   Tick (seconds 1);
   AddBulk clock0 valid_batch tt;
   Tick (seconds 2);
   Remove "a";
   Recalculate clock0].

(** X1 on a run: no task of [two_due] is named "nobody". *)
Lemma remove_schedule_absent_witness :
  remove_schedule two_due "nobody" = two_due.
Proof.
  apply (remove_schedule_absent two_due "nobody").
  vm_compute. intuition discriminate.
Defined.

(** X2 on a run: removing "job" from [twice_job]. *)
Lemma remove_schedule_first_match_witness :
  exists l1 t l2,
    tasks twice_job = (l1 ++ t :: l2)%list
    /\ name t = "job"
    /\ ~ In "job" (map name l1)
    /\ tasks (remove_schedule twice_job "job") = (l1 ++ l2)%list
    /\ S (count (remove_schedule twice_job "job")) = count twice_job.
Proof.
  apply (remove_schedule_first_match twice_job "job").
  vm_compute. now left.
Defined.

(** X3 on a run: a task for every second added to [two_due]. *)
Lemma add_schedule_inserts_witness :
  Permutation (tasks (fst (add_schedule two_due 0 "job" "* * * * * ?" tt)))
              (tasks two_due
               ++ [mkTask (next_tid two_due) "job" (create "* * * * * ?")
                          tt (seconds 1) true])%list
  /\ StronglySorted by_next_fire
       (tasks (fst (add_schedule two_due 0 "job" "* * * * * ?" tt)))
  /\ count (fst (add_schedule two_due 0 "job" "* * * * * ?" tt))
     = S (count two_due)
  /\ first_tick (fst (add_schedule two_due 0 "job" "* * * * * ?" tt))
     = first_tick two_due
  /\ last_tick (fst (add_schedule two_due 0 "job" "* * * * * ?" tt))
     = last_tick two_due.
Proof.
  apply (add_schedule_inserts two_due 0 "job" "* * * * * ?" tt (seconds 1));
    reflexivity.
Defined.

(** X4 on a run: "job" added to [two_due] and removed again. *)
Lemma add_then_remove_schedule_witness :
  Permutation
    (tasks (remove_schedule
              (fst (add_schedule two_due 0 "job" "* * * * * ?" tt)) "job"))
    (tasks two_due).
Proof.
  apply (add_then_remove_schedule two_due 0 "job" "* * * * * ?" tt).
  vm_compute. intuition discriminate.
Defined.

(** X5 on a run: [valid_batch] added to [two_due]. *)
Lemma bulk_add_is_add_each_witness :
  Permutation (tasks (fst (add_schedules two_due clock0 valid_batch tt)))
              (tasks (add_each two_due clock0 0 valid_batch tt))
  /\ count (fst (add_schedules two_due clock0 valid_batch tt))
     = count (add_each two_due clock0 0 valid_batch tt)
  /\ first_tick (fst (add_schedules two_due clock0 valid_batch tt))
     = first_tick (add_each two_due clock0 0 valid_batch tt)
  /\ last_tick (fst (add_schedules two_due clock0 valid_batch tt))
     = last_tick (add_each two_due clock0 0 valid_batch tt).
Proof.
  apply (bulk_add_is_add_each two_due clock0 valid_batch tt).
  reflexivity.
Defined.

(** X7 on a run: [two_due] ticked at 10s. *)
Lemma tick_executes_each_task_once_witness :
  NoDup (map ev_tid (calls (tick two_due (seconds 10)))).
Proof.
  apply (tick_executes_each_task_once two_due (seconds 10)).
  - exact rule_next_later.
  - vm_compute. repeat constructor; simpl; intuition discriminate.
Defined.

(** X8 on a run: [every_minute] ticked at 30s, before its task is due. *)
Lemma tick_nothing_due_witness :
  tick every_minute (seconds 30)
  = mkOutcome (mkCron (tasks every_minute) false
                      (debounce every_minute (seconds 30))
                      (next_tid every_minute)) 0 [].
Proof.
  apply (tick_nothing_due every_minute (seconds 30)).
  - left. reflexivity.
  - intros t [<-|[]]. reflexivity.
Defined.

(** X9 on a run: [every_minute] ticked at 60s. *)
Lemma tick_without_retirement_witness :
  calls (tick every_minute (seconds 60))
  = map (fun t => execute t (debounce every_minute (seconds 60)))
        (filter (fun t => is_expired t (debounce every_minute (seconds 60)))
                (tasks every_minute))
  /\ fired (tick every_minute (seconds 60))
     = List.length
         (filter (fun t => is_expired t (debounce every_minute (seconds 60)))
                 (tasks every_minute))
  /\ Permutation (tasks (engine (tick every_minute (seconds 60))))
                 (map (after_visit (debounce every_minute (seconds 60)))
                      (tasks every_minute)).
Proof.
  apply (tick_without_retirement every_minute (seconds 60)).
  - left. reflexivity.
  - intros t [<-|[]] _. vm_compute. discriminate.
Defined.

(** X10 on a run: [calm_operations]. *)
Lemma calm_run_sorted_witness :
  StronglySorted by_next_fire (tasks (run init calm_operations)).
Proof.
  apply (calm_run_sorted calm_operations).
  vm_compute. repeat split; auto.
Defined.

(** X11 on a run: [two_due] and its second task. *)
Lemma time_until_next_is_minimum_witness :
  time_until_next two_due 0 <= time_until_expiry second_task 0
  /\ exists t0, In t0 (tasks two_due)
                /\ time_until_next two_due 0 = time_until_expiry t0 0.
Proof.
  apply (time_until_next_is_minimum two_due 0 second_task).
  - apply is_sorted_spec. reflexivity.
  - vm_compute. right. now left.
Defined.

(** X13 on a run: [two_periodic] recalculated at clock 0. *)
Lemma recalculate_schedule_keeps_tasks_witness :
  count (recalculate_schedule two_periodic clock0) = count two_periodic
  /\ Permutation (names (recalculate_schedule two_periodic clock0))
                 (names two_periodic)
  /\ StronglySorted by_next_fire
       (tasks (recalculate_schedule two_periodic clock0))
  /\ (forall t, In t (tasks (recalculate_schedule two_periodic clock0)) ->
                valid t = true ->
                exists j, (j < count two_periodic)%nat
                          /\ clock0 j + one_second < next_fire t).
Proof.
  destruct (recalculate_schedule_keeps_tasks two_periodic clock0)
    as (H1 & H2 & H3 & H4).
  split; [exact H1|split; [exact H2|split; [exact H3|]]].
  apply H4. exact rule_next_later.
Defined.

(** X14 on a run: [three_due] ticked at 11s.  The first task runs and
    has no further occurrence; the third runs and is due again at 13s. *)
Lemma tick_retires_exhausted_tasks_witness :
  valid third_after_11s = true
  /\ ~ In (tid first_task) (tids (engine (tick three_due (seconds 11)))).
Proof.
  destruct (tick_retires_exhausted_tasks three_due (seconds 11))
    as [Hkept Hgone].
  - vm_compute. repeat constructor; simpl; intuition discriminate.
  - vm_compute. repeat constructor; simpl; intuition (try discriminate; lia).
  - split.
    + apply (Hkept third_after_11s
                   (mkEvent 2 "third" (seconds 11) (seconds 11))).
      * vm_compute. right. now left.
      * vm_compute. right. now left.
      * reflexivity.
    + apply (Hgone first_task
                   (mkEvent 0 "first" (seconds 5) (seconds 11))).
      * vm_compute. now left.
      * vm_compute. now left.
      * reflexivity.
      * reflexivity.
Defined.

(** X15 on a run: [every_minute] ticked at 60s and 400ms later. *)
Lemma tick_then_debounced_tick_idle_witness :
  tick (engine (tick every_minute (seconds 60)))
       (seconds 60 + milliseconds 400)
  = mkOutcome (mkCron (tasks (engine (tick every_minute (seconds 60))))
                      false (debounce every_minute (seconds 60))
                      (next_tid every_minute)) 0 [].
Proof.
  apply (tick_then_debounced_tick_idle every_minute (seconds 60)
           (seconds 60 + milliseconds 400)).
  - exact rule_next_later.
  - left. reflexivity.
  - intros t [<-|[]] _. vm_compute. discriminate.
  - vm_compute. reflexivity.
Defined.

End Further_scenarios.
